(** * possum: liveness state of a passel of possums

    A shallow embedding of [utils/utility.go] and the properties of its
    state-tracking functions ([SetupStateDB], [GetPassel], [GetState],
    [GetPasselState], [WriteState]) and of its credential readers
    ([GetDBConnectionDetails], [GetUsername], [GetPassword]).

    Conventions of the embedding:
    - a Go [error] is the text its [Error()] method returns, and a nilable
      error is an [option];
    - a function with several results returns a tuple, as in Go;
    - a function that may panic returns a [go] outcome;
    - a function that receives the [*sql.DB] handle takes the store and
      returns the store it leaves behind;
    - the debug messages sent to the logger are left out: they change
      neither the results nor the store. *)

From stdpp Require Import base option list strings gmap fin_maps.
From Stdlib Require Import Ascii.
From Stdlib Require QArith.

Set Warnings "-register-all".

(** A [float64] that holds a JSON number, by the rational it denotes. *)
Abbreviation float64 := QArith_base.Q.

(** ** Go values held in an [interface{}] *)

(** What [encoding/json] leaves in a [map[string]interface{}]: [nil], a
    [string], a [float64], a [bool],
    a [[]interface{}] or a nested [map[string]interface{}]. *)
Inductive value : Type :=
  | VNil
  | VStr (s : string)
  | VNum (x : float64)
  | VBool (b : bool)
  | VList (items : list value)
  | VMap (fields : list (string * value)).

(** The dynamic types [reflect.TypeOf] can report for such values. *)
Inductive gotype : Type :=
  | TString
  | TFloat64
  | TBool
  | TSlice
  | TMap.

#[global] Instance gotype_eq_dec : EqDecision gotype.
Proof. solve_decision. Defined.

(** [reflect.TypeOf]: [None] is the nil [reflect.Type] of a nil interface. *)
Definition TypeOf (v : value) : option gotype :=
  match v with
  | VNil => None
  | VStr _ => Some TString
  | VNum _ => Some TFloat64
  | VBool _ => Some TBool
  | VList _ => Some TSlice
  | VMap _ => Some TMap
  end.

(** A Go [error], by its message. *)
Definition error : Type := string.

(** A run-time panic. The only ones this package can raise are failed
    unchecked type assertions [x.(T)]: the dynamic type found and the
    type asserted. *)
Inductive panic : Type :=
  | InterfaceConversion (found : option gotype) (wanted : gotype).

(** Outcome of a call that may panic. *)
Inductive go (A : Type) : Type :=
  | Return (a : A)
  | Panic (p : panic).
Arguments Return {A} a.
Arguments Panic {A} p.

(** [v.(string)] *)
Definition assert_string (v : value) : go string :=
  match v with
  | VStr s => Return s
  | _ => Panic (InterfaceConversion (TypeOf v) TString)
  end.

(** [v.([]interface{})] *)
Definition assert_slice (v : value) : go (list value) :=
  match v with
  | VList items => Return items
  | _ => Panic (InterfaceConversion (TypeOf v) TSlice)
  end.

(** ** fmt.Sprintf *)

Definition dquote : string := String "034"%char EmptyString.

(** An operand of [Sprintf], given by its rendering under each verb. *)
Definition operand : Type := ascii → string.

(** A Go [string] operand: [%s] and [%v] print it as it is, and a verb
    that does not apply to strings reports the mismatch. The quoting and
    hexadecimal verbs, which no format of this package uses, are not
    told apart from those. *)
Definition op_string (s : string) : operand :=
  fun verb =>
    if decide (verb = "s"%char ∨ verb = "v"%char) then s
    else "%!" +:+ String verb ("(string=" +:+ s +:+ ")").

(** An [error] operand prints its message. *)
Definition op_error (e : error) : operand := op_string e.

(** [Sprintf format operands] for formats made of plain text and one-letter
    verbs. A verb with no operand left prints [%!verb(MISSING)]. Every call
    in this package passes exactly as many operands as its format has
    verbs, so operands left over are not rendered. *)
Fixpoint Sprintf (format : string) (ops : list operand) : string :=
  match format with
  | EmptyString => EmptyString
  | String c rest =>
      if decide (c = "%"%char) then
        match rest with
        | EmptyString => "%!(NOVERB)"
        | String verb rest' =>
            if decide (verb = "%"%char) then String "%" (Sprintf rest' ops)
            else
              match ops with
              | [] => "%!" +:+ String verb ("(MISSING)" +:+ Sprintf rest' ops)
              | o :: ops' => o verb +:+ Sprintf rest' ops'
              end
        end
      else String c (Sprintf rest ops)
  end.

(** [fmt.Errorf] *)
Definition Errorf (format : string) (ops : list operand) : error :=
  Sprintf format ops.

(** ** The environment provider (package cfenv) *)

(** Package go-cfenv is an external collaborator of this package: what it
    decodes from the platform's environment is taken as given. A bound
    service has a name and a credential payload; [Credentials[k]] of a key
    that is not bound is [nil]. *)
Record Service : Type := {
  Name : string;
  Credentials : gmap string value
}.

Record App : Type := {
  Services : list Service;
  ApplicationURIs : list string
}.

(** What [cfenv.Current()] finds: an application environment, or none. *)
Inductive Environment : Type :=
  | NotCF (err : error)
  | InCF (app : App).

(** The result of a cfenv call: a value with a nil error, or an error. *)
Inductive found (A : Type) : Type :=
  | Found (a : A)
  | Failed (err : error).
Arguments Found {A} a.
Arguments Failed {A} err.

Definition Current (env : Environment) : found App :=
  match env with
  | NotCF err => Failed err
  | InCF app => Found app
  end.

(** [Services.WithName]: the first service bound under that name. *)
Fixpoint WithName (services : list Service) (name : string) : found Service :=
  match services with
  | [] => Failed (Errorf "no service with name %s" [op_string name])
  | service :: rest =>
      if decide (Name service = name) then Found service
      else WithName rest name
  end.

(** [m[k]] on a [map[string]interface{}]. *)
Definition index (m : gmap string value) (k : string) : value :=
  default VNil (m !! k).

(** [v == nil] *)
Definition is_nil (v : value) : bool :=
  match v with
  | VNil => true
  | _ => false
  end.

(** ** Reading the passel and the basic-auth credentials *)

(** The [range] loop of [GetPassel]; [possums] is the slice built so far. *)
Fixpoint GetPassel_loop (items : list value) (possums : list string)
  : go (list string * option error) :=
  match items with
  | [] => Return (possums, None)
  | possum :: rest =>
      if decide (TypeOf possum ≠ TypeOf (VStr "")) then
        Return ([], Some (Errorf "possum was not a string" []))
      else
        match assert_string possum with
        | Return s => GetPassel_loop rest (possums ++ [s])
        | Panic p => Panic p
        end
  end.

Definition GetPassel (env : Environment) : go (list string * option error) :=
  match Current env with
  | Failed err => Return ([], Some err)
  | Found appEnv =>
      match WithName (Services appEnv) "possum" with
      | Failed err => Return ([], Some err)
      | Found service =>
          let passel := index (Credentials service) "passel" in
          match assert_slice passel with
          | Return items => GetPassel_loop items []
          | Panic p => Panic p
          end
      end
  end.

Definition GetUsername (env : Environment) : go (string * option error) :=
  match Current env with
  | Failed err => Return ("", Some err)
  | Found appEnv =>
      match WithName (Services appEnv) "possum" with
      | Failed err => Return ("", Some err)
      | Found service =>
          let username := index (Credentials service) "username" in
          if is_nil username then Return ("", None)
          else
            match assert_string username with
            | Return s => Return (s, None)
            | Panic p => Panic p
            end
      end
  end.

Definition GetPassword (env : Environment) : go (string * option error) :=
  match Current env with
  | Failed err => Return ("", Some err)
  | Found appEnv =>
      match WithName (Services appEnv) "possum" with
      | Failed err => Return ("", Some err)
      | Found service =>
          let password := index (Credentials service) "password" in
          if is_nil password then Return ("", None)
          else
            match assert_string password with
            | Return s => Return (s, None)
            | Panic p => Panic p
            end
      end
  end.

(** ** The connection string *)

Section ConnectionDetails.

(** How package fmt prints, under a verb, an operand that holds a
    [float64], a slice or a map (number formatting and the layout of
    composite values belong to the Go library and are not fixed here). *)
Variable fmt_composite : ascii → value → string.

(** An [interface{}] operand. A string prints as [op_string] says; [nil]
    prints [<nil>] under [%v] and a bool its truth value; under another
    verb both report the mismatch. *)
Definition op_value (v : value) : operand :=
  fun verb =>
    match v with
    | VStr s => op_string s verb
    | VNil =>
        if decide (verb = "v"%char) then "<nil>"
        else "%!" +:+ String verb "(<nil>)"
    | VBool b =>
        let t := if b then "true" else "false" in
        if decide (verb = "v"%char ∨ verb = "t"%char) then t
        else "%!" +:+ String verb ("(bool=" +:+ t +:+ ")")
    | _ => fmt_composite verb v
    end.

Definition GetDBConnectionDetails (env : Environment) : string * option error :=
  match Current env with
  | Failed err =>
      ("", Some (Errorf "Can't get DB details from CF env. Check DB binding: %s"
                        [op_error err]))
  | Found appEnv =>
      match WithName (Services appEnv) "possum-db" with
      | Failed err => ("", Some err)
      | Found service =>
          let hostname := index (Credentials service) "host" in
          let hostname :=
            if is_nil hostname then index (Credentials service) "hostname"
            else hostname in
          let database := index (Credentials service) "database" in
          let database :=
            if is_nil database then index (Credentials service) "name"
            else database in
          let dbConnString :=
            Sprintf "%s:%s@tcp(%s:%v)/%s"
              [op_value (index (Credentials service) "username");
               op_value (index (Credentials service) "password");
               op_value hostname;
               op_value (index (Credentials service) "port");
               op_value database] in
          (dbConnString, None)
      end
  end.

End ConnectionDetails.

(** [GetMyApplicationURIs] *)
Definition GetMyApplicationURIs (env : Environment) : list string * option error :=
  match Current env with
  | Failed err => ([], Some err)
  | Found appEnv => (ApplicationURIs appEnv, None)
  end.

(** ** The state store (package database/sql) *)

(** A row of table [state]: columns [possum] and [state]. *)
Definition row : Type := string * string.

(** The statements this package sends. *)
Inductive statement : Type :=
  | CreateTableIfNotExists
  | SelectWherePossum (possum : string)
  | InsertValues (possum state : string)
  | UpdateSetState (state possum : string).

(** What a server does with a value that is too long for the column it is
    sent to: it refuses the value ([None]), or it keeps a value in its
    place, the cut value on a server that cuts. *)
Definition overflow : Type := string → option string.

(** The store behind the [*sql.DB] handle: table [state], if it has been
    created, with its rows in insertion order (the table declares no key,
    so a possum may have several rows), the journal of the statements
    received so far, and what the server does with a value that is too
    long. The table, when it exists, is the one [SetupStateDB] creates,
    with its two [varchar(255)] columns; [possum=?] compares strings
    exactly. *)
Record DB : Type := {
  table : option (list row);
  journal : list statement;
  too_long : overflow
}.

Definition ErrNoRows : error := "sql: no rows in result set".
Definition ErrNoTable : error := "Error 1146: Table 'state' doesn't exist".
Definition ErrDataTooLong : error := "Error 1406: Data too long for column".

Definition logged (q : statement) (db : DB) (t : option (list row)) : DB :=
  {| table := t; journal := journal db ++ [q]; too_long := too_long db |}.

(** The value a [varchar(255)] column keeps of [value]: a value of at most
    255 bytes, which is at most 255 characters, is kept as it is; for a
    longer one the server decides. *)
Definition varchar255 (db : DB) (value : string) : option string :=
  if decide (String.length value ≤ 255) then Some value
  else too_long db value.

(** [UPDATE state SET state=? WHERE possum=?] on the rows. *)
Definition update_rows (state possum : string) (rows : list row) : list row :=
  map (fun r : row => if decide (r.1 = possum) then (r.1, state) else r) rows.

(** [db.Exec]: the store it leaves and the error, if any. A value written
    to a column goes through [varchar255]: the statement stores what the
    column keeps of it, and fails, changing nothing, when the server
    refuses it. The package sends its [SELECT] through [QueryRowScan]
    only; through [Exec] it would read the table and change nothing. *)
Definition Exec (q : statement) (db : DB) : DB * option error :=
  match q, table db with
  | CreateTableIfNotExists, None => (logged q db (Some []), None)
  | CreateTableIfNotExists, Some rows => (logged q db (Some rows), None)
  | InsertValues possum state, Some rows =>
      match varchar255 db possum, varchar255 db state with
      | Some possum', Some state' =>
          (logged q db (Some (rows ++ [(possum', state')])), None)
      | _, _ => (logged q db (Some rows), Some ErrDataTooLong)
      end
  | UpdateSetState state possum, Some rows =>
      match varchar255 db state with
      | Some state' =>
          (logged q db (Some (update_rows state' possum rows)), None)
      | None => (logged q db (Some rows), Some ErrDataTooLong)
      end
  | SelectWherePossum _, Some rows => (logged q db (Some rows), None)
  | _, None => (logged q db None, Some ErrNoTable)
  end.

(** [db.QueryRow("SELECT * FROM state WHERE possum=?", possum)] followed by
    [row.Scan(&possumdb, &state)]: the first matching row, in the two
    variables, which keep their zero value when the scan fails. *)
Definition QueryRowScan (possum : string) (db : DB)
  : DB * (string * string * option error) :=
  let q := SelectWherePossum possum in
  match table db with
  | None => (logged q db None, ("", "", Some ErrNoTable))
  | Some rows =>
      match list_find (fun r : row => r.1 = possum) rows with
      | Some (_, r) => (logged q db (Some rows), (r.1, r.2, None))
      | None => (logged q db (Some rows), ("", "", Some ErrNoRows))
      end
  end.

(** ** The state-tracking functions *)

(** The [range] loop of [SetupStateDB]. *)
Fixpoint SetupStateDB_loop (passel : list string) (db : DB) : DB * option error :=
  match passel with
  | [] => (db, None)
  | possum :: rest =>
      let '(db, (possumdb, state, err)) := QueryRowScan possum db in
      match err with
      | Some err =>
          if decide (err = "sql: no rows in result set") then
            let '(db, insertErr) := Exec (InsertValues possum "alive") db in
            match insertErr with
            | Some insertErr => (db, Some insertErr)
            | None => SetupStateDB_loop rest db
            end
          else (db, Some err)
      | None => SetupStateDB_loop rest db
      end
  end.

Definition SetupStateDB (env : Environment) (db : DB) : DB * go (option error) :=
  let '(db, err) := Exec CreateTableIfNotExists db in
  match err with
  | Some err => (db, Return (Some err))
  | None =>
      match GetPassel env with
      | Panic p => (db, Panic p)
      | Return (passel, Some err) => (db, Return (Some err))
      | Return (passel, None) =>
          let '(db, err) := SetupStateDB_loop passel db in
          (db, Return err)
      end
  end.

Definition GetState (db : DB) (possum : string) : DB * (string * option error) :=
  let '(db, (possumdb, state, err)) := QueryRowScan possum db in
  match err with
  | Some err =>
      if decide (err = "sql: no rows in result set") then
        (db, ("", Some (Errorf "Could not find possum %s in db" [op_string possum])))
      else (db, ("", Some err))
  | None => (db, (state, None))
  end.

(** The [range] loop of [GetPasselState]; [passelState] is the map filled
    so far. *)
Fixpoint GetPasselState_loop (passel : list string)
    (passelState : gmap string string) (db : DB)
  : DB * (option (gmap string string) * option error) :=
  match passel with
  | [] => (db, (Some passelState, None))
  | possum :: rest =>
      let '(db, (possumdb, state, err)) := QueryRowScan possum db in
      match err with
      | Some err =>
          if decide (err = "sql: no rows in result set") then
            (db, (None, Some (Errorf "Could not find possum %s in db"
                                     [op_string possum])))
          else (db, (None, Some err))
      | None => GetPasselState_loop rest (<[possum := state]> passelState) db
      end
  end.

Definition GetPasselState (db : DB) (passel : list string)
  : DB * (option (gmap string string) * option error) :=
  if decide (length passel = 0) then
    (db, (None, Some (Errorf "Passel had 0 members" [])))
  else GetPasselState_loop passel ∅ db.

Definition WriteState (db : DB) (desiredPossum desiredState : string)
  : DB * option error :=
  if decide (desiredState ≠ "alive" ∧ desiredState ≠ "dead") then
    (db, Some (Errorf ("The state should have been " +:+ dquote +:+ "alive"
                         +:+ dquote +:+ " or " +:+ dquote +:+ "dead" +:+ dquote
                         +:+ " not " +:+ dquote +:+ "%s" +:+ dquote)
                      [op_string desiredState]))
  else
    let '(db, err) := Exec (UpdateSetState desiredState desiredPossum) db in
    match err with
    | Some err => (db, Some err)
    | None => (db, None)
    end.

(** ** Vocabulary of the properties *)

(** The rows of the store; none while the table does not exist. *)
Definition stored (db : DB) : list row := default [] (table db).

(** A store that holds no row yet. *)
Definition fresh (db : DB) : Prop := stored db = [].

(** [possum] has a record. *)
Definition has_record (rows : list row) (possum : string) : Prop :=
  ∃ state, (possum, state) ∈ rows.

(** The number of records of [possum]. *)
Definition records_of (rows : list row) (possum : string) : nat :=
  length (filter (fun r : row => r.1 = possum) rows).

(** The state in the first row of [possum], the one a point lookup reads. *)
Fixpoint state_of (rows : list row) (possum : string) : option string :=
  match rows with
  | [] => None
  | r :: rest => if decide (r.1 = possum) then Some r.2 else state_of rest possum
  end.

(** Every name of the passel fits the [possum] column. *)
Definition names_fit (passel : list string) : Prop :=
  Forall (fun possum => String.length possum ≤ 255) passel.

(** The rows inserted by the statements of a journal, in order. *)
Fixpoint inserts (j : list statement) : list row :=
  match j with
  | [] => []
  | InsertValues possum state :: rest => (possum, state) :: inserts rest
  | _ :: rest => inserts rest
  end.

(** The credential read for a part of the connection string: the one under
    [key], or the one under [fallback] when [key] holds nothing. *)
Definition taken_from (credentials : gmap string value)
    (key fallback : string) (v : value) : Prop :=
  (is_nil (index credentials key) = false ∧ v = index credentials key)
  ∨ (is_nil (index credentials key) = true ∧ v = index credentials fallback).

Definition valid_state (state : string) : Prop :=
  state = "alive" ∨ state = "dead".

(** Every persisted state is ["alive"] or ["dead"]. *)
Definition valid_store (db : DB) : Prop :=
  Forall (fun r : row => valid_state r.2) (stored db).

(** The errors of the package, by the text they carry. *)
Definition TypeMismatch : error := "possum was not a string".
Definition NotFound (possum : string) : error :=
  "Could not find possum " +:+ possum +:+ " in db".
Definition InvalidState (state : string) : error :=
  "The state should have been " +:+ dquote +:+ "alive" +:+ dquote +:+ " or "
  +:+ dquote +:+ "dead" +:+ dquote +:+ " not " +:+ dquote +:+ state +:+ dquote.

(** ** Running the functions *)

Definition possum_service (credentials : gmap string value) : Service :=
  {| Name := "possum"; Credentials := credentials |}.

Definition bound (services : list Service) : Environment :=
  InCF {| Services := services; ApplicationURIs := [] |}.

Definition env_no_passel : Environment :=
  bound [possum_service ∅].

Definition env_passel_string : Environment :=
  bound [possum_service {[ "passel" := VStr "north" ]}].

Definition env_passel_mixed : Environment :=
  bound [possum_service
           {[ "passel" := VList [VStr "a"; VNum (QArith_base.Qmake 42 1); VStr "b"] ]}].

Definition possum_db_service (credentials : gmap string value) : Service :=
  {| Name := "possum-db"; Credentials := credentials |}.

(** Credentials in the layout that binds [hostname] and [name]. *)
Definition credentials_hostname_name : gmap string value :=
  <["hostname" := VStr "db.internal"]>
    (<["name" := VStr "possums"]>
       (<["username" := VStr "opossum"]>
          (<["password" := VStr "secret"]>
             (<["port" := VStr "3306"]> ∅)))).

(** The same, with [host] and [database] bound as well. *)
Definition credentials_host_database : gmap string value :=
  <["host" := VStr "db.primary"]>
    (<["database" := VStr "passel"]> credentials_hostname_name).

Definition env_username_number : Environment :=
  bound [possum_service {[ "username" := VNum (QArith_base.Qmake 42 1) ]}].

Definition env_password_bool : Environment :=
  bound [possum_service {[ "password" := VBool true ]}].

(** A server that refuses a value that is too long, and one that cuts it
    to the width of the column. *)
Definition refuse : overflow := fun _ => None.
Definition cut : overflow := fun value => Some (String.substring 0 255 value).

Definition empty_store : DB :=
  {| table := None; journal := []; too_long := refuse |}.

(** The same, on a server that cuts. *)
Definition empty_store_cut : DB :=
  {| table := None; journal := []; too_long := cut |}.

(** A name of 256 characters. *)
Definition long_name : string :=
  String.concat "" (replicate 256 "o").

Definition app_long_name : App :=
  {| Services := [possum_service {[ "passel" := VList [VStr long_name] ]}];
     ApplicationURIs := [] |}.

Definition env_long_name : Environment := InCF app_long_name.

Definition rows_north_south : list row :=
  [("north", "alive"); ("south", "dead")].

(** A store where north and south have their record. *)
Definition store_north_south : DB :=
  {| table := Some rows_north_south; journal := []; too_long := refuse |}.

(** A store that knows north only. *)
Definition store_north : DB :=
  {| table := Some [("north", "dead")]; journal := []; too_long := refuse |}.

Definition app_hostname_name : App :=
  {| Services := [possum_service ∅; possum_db_service credentials_hostname_name];
     ApplicationURIs := [] |}.

Definition app_host_database : App :=
  {| Services := [possum_db_service credentials_host_database];
     ApplicationURIs := [] |}.

Definition app_north_south : App :=
  {| Services :=
       [possum_service {[ "passel" := VList [VStr "north"; VStr "south"] ]}];
     ApplicationURIs := [] |}.

(** A stand-in for the printing of numbers and composite values. *)
Definition fmt_unused : ascii → value → string := fun _ _ => "".

Definition env_north_south : Environment := InCF app_north_south.

(** A store where north has two records. *)
Definition rows_twins : list row :=
  [("north", "alive"); ("south", "alive"); ("north", "dead")].

Definition store_twins : DB :=
  {| table := Some rows_twins; journal := []; too_long := cut |}.

(** An environment outside the platform. *)
Definition env_not_cf : Environment := NotCF "VCAP_APPLICATION is not set".

(** An application with no service bound. *)
Definition app_no_service : App :=
  {| Services := []; ApplicationURIs := ["possum.example.org"] |}.

(** An application whose services are bound with no credential. *)
Definition app_no_credentials : App :=
  {| Services := [possum_service ∅; possum_db_service ∅];
     ApplicationURIs := [] |}.

Definition service_basic_auth : Service :=
  possum_service
    (<["username" := VStr "keeper"]> (<["password" := VStr "marsupial"]> ∅)).

Definition app_basic_auth : App :=
  {| Services := [service_basic_auth]; ApplicationURIs := [] |}.

Definition service_passel_mixed : Service :=
  possum_service
    {[ "passel" := VList [VStr "a"; VNum (QArith_base.Qmake 42 1); VStr "b"] ]}.

Definition app_passel_mixed : App :=
  {| Services := [service_passel_mixed]; ApplicationURIs := [] |}.

Definition service_north_south : Service :=
  possum_service {[ "passel" := VList [VStr "north"; VStr "south"] ]}.

(** What a bulk read of [store_north_south] returns. *)
Definition states_north_south : gmap string string :=
  <["south" := "dead"]> (<["north" := "alive"]> ∅).

Example GetPassel_north_south :
  GetPassel env_north_south = Return (["north"; "south"], None).
Proof. vm_compute. reflexivity. Qed.

Example scenario_north_south :
  let '(db1, r1) := SetupStateDB env_north_south empty_store in
  let '(db2, r2) := WriteState db1 "south" "dead" in
  let '(db3, r3) := GetPasselState db2 ["north"; "south"] in
  r1 = Return None ∧ r2 = None ∧
  table db1 = Some [("north", "alive"); ("south", "alive")] ∧
  r3 = (Some (<["south" := "dead"]> (<["north" := "alive"]> ∅)), None).
Proof. vm_compute. repeat split; reflexivity. Qed.

Example WriteState_unknown :
  WriteState empty_store "north" "unknown"
  = (empty_store,
     Some ("The state should have been " +:+ dquote +:+ "alive" +:+ dquote
           +:+ " or " +:+ dquote +:+ "dead" +:+ dquote +:+ " not " +:+ dquote
           +:+ "unknown" +:+ dquote)).
Proof. vm_compute. reflexivity. Qed.

(** ** The store primitives *)

Lemma Errorf_NotFound possum :
  Errorf "Could not find possum %s in db" [op_string possum] = NotFound possum.
Proof. reflexivity. Qed.

Lemma list_find_state_of (rows : list row) possum :
  match list_find (fun r : row => r.1 = possum) rows with
  | Some (_, r) => r.1 = possum ∧ state_of rows possum = Some r.2
  | None => state_of rows possum = None
  end.
Proof.
  induction rows as [|[p st] rows IH]; simpl; [done|].
  case_decide as Hp; simpl in *; [done|].
  by destruct (list_find _ rows) as [[i r]|].
Qed.

Lemma QueryRowScan_table db rows possum :
  table db = Some rows →
  QueryRowScan possum db
  = (logged (SelectWherePossum possum) db (Some rows),
     match state_of rows possum with
     | Some state => (possum, state, None)
     | None => ("", "", Some ErrNoRows)
     end).
Proof.
  intros Ht. unfold QueryRowScan. rewrite Ht.
  pose proof (list_find_state_of rows possum) as H.
  destruct (list_find _ rows) as [[i [p st]]|]; simpl in H.
  - destruct H as [-> ->]. done.
  - by rewrite H.
Qed.

Lemma QueryRowScan_no_table db possum :
  table db = None →
  QueryRowScan possum db
  = (logged (SelectWherePossum possum) db None, ("", "", Some ErrNoTable)).
Proof. intros Ht. unfold QueryRowScan. by rewrite Ht. Qed.

Lemma stored_table db rows : table db = Some rows → stored db = rows.
Proof. unfold stored. by intros ->. Qed.

Lemma stored_logged q db t : stored (logged q db t) = default [] t.
Proof. done. Qed.

Lemma state_of_is_Some rows possum :
  is_Some (state_of rows possum) ↔ has_record rows possum.
Proof.
  unfold has_record. induction rows as [|[p st] rows IH]; simpl.
  - split; [by intros [? ?]|]. intros [st H]. by apply elem_of_nil in H.
  - case_decide as Hp; simpl in *.
    + subst. split; [|by eauto]. intros _. exists st. by left.
    + rewrite IH. split; intros [st' H]; exists st'.
      * by right.
      * apply elem_of_cons in H as [H|H]; [congruence|done].
Qed.

Lemma state_of_None rows possum :
  state_of rows possum = None ↔ ¬ has_record rows possum.
Proof. rewrite <- state_of_is_Some, eq_None_not_Some. done. Qed.

Lemma state_of_app rows1 rows2 possum :
  state_of (rows1 ++ rows2) possum
  = match state_of rows1 possum with
    | Some state => Some state
    | None => state_of rows2 possum
    end.
Proof.
  induction rows1 as [|r rows1 IH]; simpl; [done|]. by case_decide.
Qed.

Lemma state_of_update state possum rows q :
  state_of (update_rows state possum rows) q
  = if decide (q = possum) then
      match state_of rows possum with Some _ => Some state | None => None end
    else state_of rows q.
Proof.
  induction rows as [|[p st] rows IH]; simpl.
  - by case_decide.
  - rewrite IH. clear IH.
    destruct (decide (p = possum)) as [->|Hp], (decide (q = possum)) as [->|Hq];
      simpl; repeat case_decide; simplify_eq; done.
Qed.

Lemma update_rows_absent state possum rows :
  ¬ has_record rows possum → update_rows state possum rows = rows.
Proof.
  unfold has_record, update_rows. induction rows as [|[p st] rows IH]; simpl; [done|].
  intros Hno. rewrite IH.
  - case_decide as Hp; [|done]. simpl in Hp. subst.
    exfalso. apply Hno. exists st. by left.
  - intros [st' H]. apply Hno. exists st'. by right.
Qed.

Lemma update_rows_valid state possum rows :
  valid_state state →
  Forall (fun r : row => valid_state r.2) rows →
  Forall (fun r : row => valid_state r.2) (update_rows state possum rows).
Proof.
  intros Hs. unfold update_rows. induction 1 as [|r rows Hr _ IH]; simpl.
  - constructor.
  - constructor; [|done]. by case_decide.
Qed.

Lemma records_of_state_of rows possum :
  state_of rows possum = None → records_of rows possum = 0.
Proof.
  unfold records_of. induction rows as [|[p st] rows IH]; simpl; [done|].
  rewrite filter_cons. simpl. by case_decide.
Qed.

Lemma records_of_has_record rows possum :
  0 < records_of rows possum → has_record rows possum.
Proof.
  intros Hn. apply state_of_is_Some.
  destruct (state_of rows possum) eqn:Hs; [by eauto|].
  apply records_of_state_of in Hs. lia.
Qed.

(** ** WriteState and GetState *)

Lemma valid_state_guard state :
  valid_state state ↔ ¬ (state ≠ "alive" ∧ state ≠ "dead").
Proof.
  unfold valid_state. split.
  - intros [->| ->] [? ?]; congruence.
  - intros Hn. destruct (decide (state = "alive")); [by left|].
    destruct (decide (state = "dead")); [by right|]. exfalso. by apply Hn.
Qed.

Lemma varchar255_fits db value :
  String.length value ≤ 255 → varchar255 db value = Some value.
Proof. intros Hlen. unfold varchar255. by rewrite decide_True. Qed.

Lemma varchar255_valid_state db state :
  valid_state state → varchar255 db state = Some state.
Proof. intros [-> | ->]; apply varchar255_fits; simpl; lia. Qed.

Lemma WriteState_valid db rows possum state :
  table db = Some rows → valid_state state →
  WriteState db possum state
  = (logged (UpdateSetState state possum) db
       (Some (update_rows state possum rows)), None).
Proof.
  intros Ht Hs. unfold WriteState.
  rewrite decide_False by by apply valid_state_guard.
  unfold Exec. by rewrite Ht, varchar255_valid_state.
Qed.

Lemma WriteState_no_table db possum state :
  table db = None → valid_state state →
  WriteState db possum state
  = (logged (UpdateSetState state possum) db None, Some ErrNoTable).
Proof.
  intros Ht Hs. unfold WriteState.
  rewrite decide_False by by apply valid_state_guard.
  unfold Exec. by rewrite Ht.
Qed.

Lemma WriteState_invalid db possum state :
  ¬ valid_state state →
  WriteState db possum state = (db, Some (InvalidState state)).
Proof.
  intros Hs. unfold WriteState. rewrite decide_True; [done|].
  destruct (decide (state ≠ "alive" ∧ state ≠ "dead")) as [|Hn]; [done|].
  exfalso. by apply Hs, valid_state_guard.
Qed.

Lemma GetState_table db rows possum :
  table db = Some rows →
  GetState db possum
  = (logged (SelectWherePossum possum) db (Some rows),
     match state_of rows possum with
     | Some state => (state, None)
     | None => ("", Some (NotFound possum))
     end).
Proof.
  intros Ht. unfold GetState. rewrite (QueryRowScan_table _ _ _ Ht).
  by destruct (state_of rows possum).
Qed.

Lemma GetState_no_table db possum :
  table db = None →
  GetState db possum
  = (logged (SelectWherePossum possum) db None, ("", Some ErrNoTable)).
Proof.
  intros Ht. unfold GetState. by rewrite (QueryRowScan_no_table _ _ Ht).
Qed.

(** C4. Round trip: when [possum] has exactly one record and [state] is
    ["alive"] or ["dead"], [WriteState possum state] returns no error and
    the [GetState possum] that follows returns [state], with no error. *)
Theorem WriteState_GetState_round_trip db rows possum state :
  table db = Some rows →
  records_of rows possum = 1 →
  valid_state state →
  ∃ db1, WriteState db possum state = (db1, None)
         ∧ (GetState db1 possum).2 = (state, None).
Proof.
  intros Ht Hone Hs. eexists. split; [by apply WriteState_valid|].
  erewrite GetState_table by done. simpl.
  rewrite state_of_update, decide_True by done.
  assert (has_record rows possum) as Hr
    by (apply records_of_has_record; lia).
  apply state_of_is_Some in Hr as [st ->]. done.
Qed.

(** C6. A [desiredState] other than ["alive"] and ["dead"] is refused with
    the invalid-state error, and the store is returned as it was received:
    same table, and no statement added to the journal. *)
Theorem WriteState_rejects_invalid_state db possum state :
  state ≠ "alive" → state ≠ "dead" →
  WriteState db possum state = (db, Some (InvalidState state)).
Proof.
  intros Ha Hd. apply WriteState_invalid. by intros [?|?].
Qed.

(** C7. For a possum with no record and a state that is ["alive"] or
    ["dead"], [WriteState] returns no error, and the rows of the store are
    the ones it had. *)
Theorem WriteState_unknown_possum_succeeds db rows possum state :
  table db = Some rows →
  ¬ has_record rows possum →
  valid_state state →
  ∃ db1, WriteState db possum state = (db1, None) ∧ table db1 = Some rows.
Proof.
  intros Ht Hno Hs. eexists. split; [by apply WriteState_valid|].
  simpl. by rewrite update_rows_absent.
Qed.

(** ** GetPasselState *)

Lemma GetPasselState_loop_found passel : ∀ passelState db rows,
  table db = Some rows →
  (∀ possum, possum ∈ passel → has_record rows possum) →
  ∃ db1 result,
    GetPasselState_loop passel passelState db = (db1, (Some result, None))
    ∧ table db1 = Some rows
    ∧ ∀ k, result !! k
           = if decide (k ∈ passel) then state_of rows k else passelState !! k.
Proof.
  induction passel as [|possum rest IH]; intros acc db rows Ht Hall;
    cbn [GetPasselState_loop].
  - exists db, acc. split_and!; [done..|]. intros k.
    rewrite decide_False; [done|]. apply not_elem_of_nil.
  - rewrite (QueryRowScan_table _ _ _ Ht).
    destruct (proj2 (state_of_is_Some rows possum)) as [st Hst];
      [apply Hall; by left|].
    rewrite Hst.
    destruct (IH (<[possum:=st]> acc)
                (logged (SelectWherePossum possum) db (Some rows)) rows)
      as (db1 & result & Hloop & Ht1 & Hres); [done| |].
    { intros q Hq. apply Hall. by right. }
    exists db1, result. split_and!; [done..|]. intros k. rewrite Hres.
    destruct (decide (k = possum)) as [->|Hk].
    + rewrite (decide_True (P := possum ∈ possum :: rest)) by by left.
      case_decide; [done|]. by rewrite lookup_insert_eq.
    + rewrite lookup_insert_ne by done.
      destruct (decide (k ∈ rest)) as [Hin|Hin].
      * rewrite decide_True; [done|]. by right.
      * rewrite decide_False; [done|].
        intros [?|?]%elem_of_cons; done.
Qed.

Lemma GetPasselState_loop_missing pre : ∀ possum post passelState db rows,
  table db = Some rows →
  (∀ q, q ∈ pre → has_record rows q) →
  ¬ has_record rows possum →
  ∃ db1,
    GetPasselState_loop (pre ++ possum :: post) passelState db
    = (db1, (None, Some (NotFound possum)))
    ∧ table db1 = Some rows.
Proof.
  induction pre as [|q pre IH]; intros possum post acc db rows Ht Hpre Hno; simpl.
  - rewrite (QueryRowScan_table _ _ _ Ht).
    apply state_of_None in Hno. rewrite Hno. simpl. by eexists.
  - rewrite (QueryRowScan_table _ _ _ Ht).
    destruct (proj2 (state_of_is_Some rows q)) as [st Hst];
      [apply Hpre; by left|].
    rewrite Hst. apply IH; [done| |done].
    intros q' Hq'. apply Hpre. by right.
Qed.

Lemma GetPasselState_missing db rows pre possum post :
  table db = Some rows →
  (∀ q, q ∈ pre → has_record rows q) →
  ¬ has_record rows possum →
  ∃ db1, GetPasselState db (pre ++ possum :: post)
         = (db1, (None, Some (NotFound possum)))
         ∧ table db1 = Some rows.
Proof.
  intros Ht Hpre Hno. unfold GetPasselState. case_decide as Hlen.
  - rewrite length_app in Hlen. simpl in Hlen. lia.
  - by apply GetPasselState_loop_missing.
Qed.

Lemma GetPasselState_found db rows passel :
  table db = Some rows →
  passel ≠ [] →
  (∀ q, q ∈ passel → has_record rows q) →
  ∃ db1 result,
    GetPasselState db passel = (db1, (Some result, None))
    ∧ table db1 = Some rows
    ∧ dom result = list_to_set passel
    ∧ ∀ q, q ∈ passel → result !! q = state_of rows q.
Proof.
  intros Ht Hne Hall. unfold GetPasselState.
  case_decide as Hlen; [by destruct passel|].
  destruct (GetPasselState_loop_found passel ∅ db rows Ht Hall)
    as (db1 & result & Hloop & Ht1 & Hres).
  exists db1, result. split_and!; [done..| |].
  - apply set_eq. intros k.
    rewrite elem_of_dom, elem_of_list_to_set, Hres.
    case_decide as Hk.
    + split; [done|]. intros _. by apply state_of_is_Some, Hall.
    + rewrite lookup_empty. split; [by intros [? ?]|done].
  - intros q Hq. rewrite Hres. by rewrite decide_True.
Qed.

(** C5. [GetPasselState] is all or nothing. When some member of the list
    has no record, the call returns a nil map and the not-found error of
    the first such member in list order; when every member of a non-empty
    list has a record, it returns no error and a map whose keys are the
    members, each with the state of its record. In both cases the rows of
    the store are the ones it had. *)
Theorem GetPasselState_all_or_nothing db rows passel :
  table db = Some rows →
  (∀ pre possum post,
     passel = pre ++ possum :: post →
     (∀ q, q ∈ pre → has_record rows q) →
     ¬ has_record rows possum →
     ∃ db1, GetPasselState db passel = (db1, (None, Some (NotFound possum)))
            ∧ table db1 = Some rows)
  ∧ (passel ≠ [] →
     (∀ q, q ∈ passel → has_record rows q) →
     ∃ db1 result,
       GetPasselState db passel = (db1, (Some result, None))
       ∧ table db1 = Some rows
       ∧ dom result = list_to_set passel
       ∧ ∀ q, q ∈ passel → result !! q = state_of rows q).
Proof.
  intros Ht. split.
  - intros pre possum post -> Hpre Hno. by apply GetPasselState_missing.
  - intros Hne Hall. by apply GetPasselState_found.
Qed.

(** ** SetupStateDB *)

Lemma inserts_app j1 j2 : inserts (j1 ++ j2) = inserts j1 ++ inserts j2.
Proof.
  induction j1 as [|q j1 IH]; simpl; [done|]. destruct q; simpl; by rewrite IH.
Qed.

Lemma Exec_insert_alive_cases db rows possum :
  table db = Some rows →
  Exec (InsertValues possum "alive") db
  = match varchar255 db possum with
    | Some possum' =>
        (logged (InsertValues possum "alive") db
           (Some (rows ++ [(possum', "alive")])), None)
    | None =>
        (logged (InsertValues possum "alive") db (Some rows),
         Some ErrDataTooLong)
    end.
Proof.
  intros Ht. unfold Exec. rewrite Ht.
  rewrite (varchar255_fits db "alive") by (simpl; lia).
  by destruct (varchar255 db possum).
Qed.

Lemma Exec_insert_alive db rows possum :
  table db = Some rows →
  String.length possum ≤ 255 →
  Exec (InsertValues possum "alive") db
  = (logged (InsertValues possum "alive") db
       (Some (rows ++ [(possum, "alive")])), None).
Proof.
  intros Ht Hlen. rewrite (Exec_insert_alive_cases _ _ _ Ht).
  by rewrite varchar255_fits.
Qed.

(** What the loop of [SetupStateDB] does on a store whose table exists,
    for a passel whose names fit the column: it returns no error and
    appends [added], one ["alive"] row for each possum of the passel that
    had no record. *)
Lemma SetupStateDB_loop_spec passel : ∀ db rows,
  names_fit passel →
  table db = Some rows →
  ∃ db1 added,
    SetupStateDB_loop passel db = (db1, None)
    ∧ table db1 = Some (rows ++ added)
    ∧ inserts (journal db1) = inserts (journal db) ++ added
    ∧ Forall (fun r : row =>
                r.2 = "alive" ∧ r.1 ∈ passel ∧ state_of rows r.1 = None) added
    ∧ NoDup added.*1
    ∧ ∀ q, state_of (rows ++ added) q
           = match state_of rows q with
             | Some state => Some state
             | None => if decide (q ∈ passel) then Some "alive" else None
             end.
Proof.
  induction passel as [|possum rest IH]; intros db rows Hfit Ht;
    cbn [SetupStateDB_loop].
  - exists db, []. rewrite !app_nil_r. split_and!; try done.
    + constructor.
    + intros q. destruct (state_of rows q); [done|].
      rewrite decide_False; [done|]. apply not_elem_of_nil.
  - apply Forall_cons in Hfit as [Hlen Hfit].
    rewrite (QueryRowScan_table _ _ _ Ht).
    destruct (state_of rows possum) as [st|] eqn:Hst.
    + destruct (IH (logged (SelectWherePossum possum) db (Some rows)) rows)
        as (db1 & added & Hloop & Ht1 & Hins & Hadd & Hnd & Hlook); [done..|].
      exists db1, added. split_and!; try done.
      * rewrite Hins. cbn [journal logged]. rewrite inserts_app.
        cbn [inserts]. by rewrite app_nil_r.
      * eapply Forall_impl; [exact Hadd|]. intros r (? & ? & ?).
        split_and!; [done| |done]. by right.
      * intros q. rewrite Hlook. destruct (state_of rows q) eqn:Hq; [done|].
        destruct (decide (q ∈ rest)) as [Hin|Hin].
        -- rewrite decide_True; [done|]. by right.
        -- rewrite decide_False; [done|].
           intros [->|?]%elem_of_cons; [congruence|done].
    + rewrite decide_True by done.
      rewrite (Exec_insert_alive _ rows) by done.
      set (db2 := logged (InsertValues possum "alive") _ _).
      destruct (IH db2 (rows ++ [(possum, "alive")]))
        as (db1 & added & Hloop & Ht1 & Hins & Hadd & Hnd & Hlook); [done..|].
      exists db1, ((possum, "alive") :: added).
      rewrite Hloop. split_and!.
      * done.
      * rewrite Ht1. by rewrite <- app_assoc.
      * rewrite Hins. unfold db2. cbn [journal logged].
        rewrite !inserts_app. cbn [inserts].
        by rewrite app_nil_r, <- app_assoc.
      * constructor; [split_and!; [done|by left|done]|].
        eapply Forall_impl; [exact Hadd|]. intros r (? & ? & Hn).
        split_and!; [done|by right|].
        rewrite state_of_app in Hn. by destruct (state_of rows r.1).
      * simpl. constructor; [|done].
        intros (r & Hr1 & Hr)%list_elem_of_fmap.
        rewrite Forall_forall in Hadd. destruct (Hadd r Hr) as (_ & _ & Hn).
        rewrite state_of_app, <- Hr1, Hst in Hn. simpl in Hn.
        by rewrite decide_True in Hn.
      * intros q. replace (rows ++ (possum, "alive") :: added)
          with ((rows ++ [(possum, "alive")]) ++ added)
          by by rewrite <- app_assoc.
        rewrite Hlook, state_of_app. destruct (state_of rows q) eqn:Hq; [done|].
        simpl. destruct (decide (possum = q)) as [->|Hne].
        -- rewrite decide_True; [done|]. by left.
        -- destruct (decide (q ∈ rest)) as [Hin|Hin].
           ++ rewrite decide_True; [done|]. by right.
           ++ rewrite decide_False; [done|].
              intros [->|?]%elem_of_cons; done.
Qed.

Lemma state_of_Some_elem rows possum state :
  state_of rows possum = Some state → (possum, state) ∈ rows.
Proof.
  induction rows as [|[p st] rows IH]; simpl; [done|].
  case_decide as Hp; simpl in *.
  - intros [= <-]. subst. by left.
  - intros H. right. by apply IH.
Qed.

Lemma Exec_create db :
  Exec CreateTableIfNotExists db
  = (logged CreateTableIfNotExists db (Some (stored db)), None).
Proof. unfold Exec, stored. by destruct (table db). Qed.

Lemma SetupStateDB_resolved env passel db :
  GetPassel env = Return (passel, None) →
  names_fit passel →
  ∃ db1 added,
    SetupStateDB env db = (db1, Return None)
    ∧ table db1 = Some (stored db ++ added)
    ∧ inserts (journal db1) = inserts (journal db) ++ added
    ∧ Forall (fun r : row =>
                r.2 = "alive" ∧ r.1 ∈ passel ∧ state_of (stored db) r.1 = None)
             added
    ∧ NoDup added.*1
    ∧ ∀ q, state_of (stored db ++ added) q
           = match state_of (stored db) q with
             | Some state => Some state
             | None => if decide (q ∈ passel) then Some "alive" else None
             end.
Proof.
  intros Hp Hfit. unfold SetupStateDB. rewrite Exec_create, Hp.
  destruct (SetupStateDB_loop_spec passel
              (logged CreateTableIfNotExists db (Some (stored db))) (stored db))
    as (db1 & added & Hloop & Ht1 & Hins & Hadd & Hnd & Hlook); [done..|].
  exists db1, added. rewrite Hloop. split_and!; try done.
  rewrite Hins. cbn [journal logged]. rewrite inserts_app. cbn [inserts].
  by rewrite app_nil_r.
Qed.

(** On every path, served or refused, the loop of [SetupStateDB] leaves
    the table in place and only appends ["alive"] rows. *)
Lemma SetupStateDB_loop_appends passel : ∀ db rows,
  table db = Some rows →
  ∃ added, table (SetupStateDB_loop passel db).1 = Some (rows ++ added)
           ∧ Forall (fun r : row => r.2 = "alive") added.
Proof.
  induction passel as [|possum rest IH]; intros db rows Ht;
    cbn [SetupStateDB_loop].
  - exists []. by rewrite app_nil_r.
  - rewrite (QueryRowScan_table _ _ _ Ht).
    destruct (state_of rows possum) as [st|].
    + by apply IH.
    + rewrite decide_True by done.
      rewrite (Exec_insert_alive_cases _ rows) by done.
      destruct (varchar255 _ possum) as [possum'|].
      * destruct (IH (logged (InsertValues possum "alive")
                        (logged (SelectWherePossum possum) db (Some rows))
                        (Some (rows ++ [(possum', "alive")])))
                     (rows ++ [(possum', "alive")]))
          as (added & Ht1 & Hadd); [done|].
        exists ((possum', "alive") :: added). split.
        -- rewrite Ht1. by rewrite <- app_assoc.
        -- by constructor.
      * exists []. by rewrite app_nil_r.
Qed.

Lemma SetupStateDB_appends env db :
  ∃ added, table (SetupStateDB env db).1 = Some (stored db ++ added)
           ∧ Forall (fun r : row => r.2 = "alive") added.
Proof.
  unfold SetupStateDB. rewrite Exec_create.
  destruct (GetPassel env) as [[passel [err|]]|p].
  - exists []. by rewrite app_nil_r.
  - destruct (SetupStateDB_loop_appends passel
                (logged CreateTableIfNotExists db (Some (stored db)))
                (stored db)) as (added & Ht1 & Hadd); [done|].
    exists added. split; [|done].
    by destruct (SetupStateDB_loop passel _).
  - exists []. by rewrite app_nil_r.
Qed.

(** Whatever the environment, [SetupStateDB] only appends ["alive"] rows. *)
Lemma SetupStateDB_stored env db :
  ∃ added, stored (SetupStateDB env db).1 = stored db ++ added
           ∧ Forall (fun r : row => r.2 = "alive") added.
Proof.
  destruct (SetupStateDB_appends env db) as (added & Ht1 & Hadd).
  exists added. by rewrite (stored_table _ _ Ht1).
Qed.

(** C2, amended. On a fresh store, once the passel [passel] of the
    environment is resolved, is not empty and has names that fit the
    [possum] column (at most 255 bytes each), [SetupStateDB] returns no
    error and the [GetPasselState passel] that follows returns no error and
    a map whose keys are exactly the members of [passel], each mapped to
    ["alive"]. *)
Theorem SetupStateDB_then_GetPasselState env passel db :
  GetPassel env = Return (passel, None) →
  passel ≠ [] →
  names_fit passel →
  fresh db →
  ∃ db1 db2 result,
    SetupStateDB env db = (db1, Return None)
    ∧ GetPasselState db1 passel = (db2, (Some result, None))
    ∧ dom result = list_to_set passel
    ∧ ∀ possum, possum ∈ passel → result !! possum = Some "alive".
Proof.
  intros Hp Hne Hfit Hfresh.
  destruct (SetupStateDB_resolved env passel db Hp Hfit)
    as (db1 & added & Hsetup & Ht1 & _ & _ & _ & Hlook).
  rewrite Hfresh in Ht1, Hlook. simpl in Ht1, Hlook.
  assert (∀ q, q ∈ passel → state_of added q = Some "alive") as Halive.
  { intros q Hq. rewrite Hlook. by rewrite decide_True. }
  destruct (GetPasselState_found db1 added passel Ht1 Hne)
    as (db2 & result & Hget & _ & Hdom & Hres).
  { intros q Hq. apply state_of_is_Some. rewrite Halive; by eauto. }
  exists db1, db2, result. split_and!; [done..|].
  intros q Hq. rewrite Hres by done. by apply Halive.
Qed.


(** ** The store invariant *)

Lemma QueryRowScan_stored possum db : stored (QueryRowScan possum db).1 = stored db.
Proof.
  destruct (table db) as [rows|] eqn:Ht.
  - rewrite (QueryRowScan_table _ _ _ Ht). simpl. by rewrite (stored_table _ _ Ht).
  - rewrite (QueryRowScan_no_table _ _ Ht). unfold stored. by rewrite Ht.
Qed.

Lemma GetState_stored db possum : stored (GetState db possum).1 = stored db.
Proof.
  unfold GetState. pose proof (QueryRowScan_stored possum db) as H.
  destruct (QueryRowScan possum db) as [db1 [[possumdb state] [err|]]];
    [case_decide|]; done.
Qed.

Lemma GetPasselState_loop_stored passel : ∀ passelState db,
  stored (GetPasselState_loop passel passelState db).1 = stored db.
Proof.
  induction passel as [|possum rest IH]; intros acc db;
    cbn [GetPasselState_loop]; [done|].
  pose proof (QueryRowScan_stored possum db) as H.
  destruct (QueryRowScan possum db) as [db1 [[possumdb state] [err|]]].
  - by case_decide.
  - by rewrite IH.
Qed.

Lemma GetPasselState_stored db passel :
  stored (GetPasselState db passel).1 = stored db.
Proof.
  unfold GetPasselState. case_decide; [done|]. apply GetPasselState_loop_stored.
Qed.

Lemma WriteState_stored db possum state :
  stored (WriteState db possum state).1 = stored db
  ∨ valid_state state
    ∧ stored (WriteState db possum state).1 = update_rows state possum (stored db).
Proof.
  destruct (decide (valid_state state)) as [Hs|Hs].
  - right. split; [done|]. destruct (table db) as [rows|] eqn:Ht.
    + rewrite (WriteState_valid _ _ _ _ Ht Hs). simpl.
      by rewrite (stored_table _ _ Ht).
    + rewrite (WriteState_no_table _ _ _ Ht Hs). unfold stored. by rewrite Ht.
  - left. by rewrite WriteState_invalid.
Qed.

Lemma valid_store_fresh db : fresh db → valid_store db.
Proof. unfold fresh, valid_store. intros ->. constructor. Qed.

(** C8. Every operation of the package keeps the store valid: when every
    persisted state is ["alive"] or ["dead"] before [SetupStateDB],
    [WriteState], [GetState] or [GetPasselState], whatever their arguments
    and outcome, it is so in the store they leave. *)
Theorem valid_store_preserved env db possum state passel :
  valid_store db →
  valid_store (SetupStateDB env db).1
  ∧ valid_store (WriteState db possum state).1
  ∧ valid_store (GetState db possum).1
  ∧ valid_store (GetPasselState db passel).1.
Proof.
  unfold valid_store. intros Hv. split_and!.
  - destruct (SetupStateDB_stored env db) as (added & -> & Hadd).
    apply Forall_app. split; [done|].
    eapply Forall_impl; [exact Hadd|]. intros r Hr. by left.
  - destruct (WriteState_stored db possum state) as [->|[Hs ->]]; [done|].
    by apply update_rows_valid.
  - by rewrite GetState_stored.
  - by rewrite GetPasselState_stored.
Qed.

(** ** The passel *)

Lemma GetPassel_loop_strings names : ∀ possums,
  GetPassel_loop (VStr <$> names) possums = Return (possums ++ names, None).
Proof.
  induction names as [|name names IH]; intros possums; simpl.
  - by rewrite app_nil_r.
  - rewrite IH. by rewrite <- app_assoc.
Qed.

Lemma GetPassel_loop_not_string items : ∀ possums,
  Exists (fun v => TypeOf v ≠ Some TString) items →
  GetPassel_loop items possums = Return ([], Some TypeMismatch).
Proof.
  induction items as [|v items IH]; intros possums Hex.
  - by apply Exists_nil in Hex.
  - cbn [GetPassel_loop]. case_decide as Hty; [done|].
    apply Exists_cons in Hex as [Hv|Hex]; [done|].
    destruct v; simpl in *; try done. by apply IH.
Qed.

Lemma GetPassel_found app service :
  WithName (Services app) "possum" = Found service →
  GetPassel (InCF app)
  = match index (Credentials service) "passel" with
    | VList items => GetPassel_loop items []
    | v => Panic (InterfaceConversion (TypeOf v) TSlice)
    end.
Proof.
  intros Hs. unfold GetPassel. simpl. rewrite Hs.
  by destruct (index (Credentials service) "passel").
Qed.

(** A passel that is a sequence of strings is returned in source order. *)
Lemma GetPassel_strings app service names :
  WithName (Services app) "possum" = Found service →
  index (Credentials service) "passel" = VList (VStr <$> names) →
  GetPassel (InCF app) = Return (names, None).
Proof.
  intros Hs Hp. rewrite (GetPassel_found _ _ Hs), Hp.
  apply GetPassel_loop_strings.
Qed.

(** A sequence with an element that is not a string is refused. *)
Lemma GetPassel_not_string app service items :
  WithName (Services app) "possum" = Found service →
  index (Credentials service) "passel" = VList items →
  Exists (fun v => TypeOf v ≠ Some TString) items →
  GetPassel (InCF app) = Return ([], Some TypeMismatch).
Proof.
  intros Hs Hp Hex. rewrite (GetPassel_found _ _ Hs), Hp.
  by apply GetPassel_loop_not_string.
Qed.

(** A passel that is absent, or is not a sequence, makes the unchecked
    assertion [passel.([]interface{})] panic. *)
Lemma GetPassel_not_slice app service :
  WithName (Services app) "possum" = Found service →
  TypeOf (index (Credentials service) "passel") ≠ Some TSlice →
  GetPassel (InCF app)
  = Panic (InterfaceConversion
             (TypeOf (index (Credentials service) "passel")) TSlice).
Proof.
  intros Hs Hp. rewrite (GetPassel_found _ _ Hs).
  by destruct (index (Credentials service) "passel").
Qed.

(** C1, at the inputs where the code departs from it. With no passel in
    the credentials of service possum, and with a passel that is a string
    and not a sequence, [GetPassel] returns no error: it panics. With the
    passel [["a", 42, "b"]] it does return the type-mismatch error. *)
Theorem GetPassel_panics_without_sequence :
  GetPassel env_no_passel = Panic (InterfaceConversion None TSlice)
  ∧ GetPassel env_passel_string
    = Panic (InterfaceConversion (Some TString) TSlice)
  ∧ GetPassel env_passel_mixed = Return ([], Some TypeMismatch).
Proof. split_and!; vm_compute; reflexivity. Qed.

(** ** The connection string *)

Lemma append_empty_r (s : string) : s +:+ "" = s.
Proof.
  induction s as [|c s IH]; [done|].
  change (String c (s +:+ "") = String c s). by rewrite IH.
Qed.

(** C9. The connection string is [username:password@tcp(host:port)/database]
    for every credential payload of service possum-db: each part is the
    credential printed by fmt ([%v] for the port, [%s] for the others), the
    host is read under [host], or under [hostname] when [host] holds
    nothing, and the database under [database], or under [name] when
    [database] holds nothing. *)
Theorem GetDBConnectionDetails_format fmt_composite app service host database :
  WithName (Services app) "possum-db" = Found service →
  taken_from (Credentials service) "host" "hostname" host →
  taken_from (Credentials service) "database" "name" database →
  GetDBConnectionDetails fmt_composite (InCF app)
  = (op_value fmt_composite (index (Credentials service) "username") "s"%char
     +:+ ":"
     +:+ op_value fmt_composite (index (Credentials service) "password") "s"%char
     +:+ "@tcp("
     +:+ op_value fmt_composite host "s"%char
     +:+ ":"
     +:+ op_value fmt_composite (index (Credentials service) "port") "v"%char
     +:+ ")/"
     +:+ op_value fmt_composite database "s"%char,
     None).
Proof.
  intros Hs Hhost Hdb. unfold GetDBConnectionDetails. simpl. rewrite Hs.
  assert ((if is_nil (index (Credentials service) "host")
           then index (Credentials service) "hostname"
           else index (Credentials service) "host") = host) as ->.
  { by destruct Hhost as [[-> ->]|[-> ->]]. }
  assert ((if is_nil (index (Credentials service) "database")
           then index (Credentials service) "name"
           else index (Credentials service) "database") = database) as ->.
  { by destruct Hdb as [[-> ->]|[-> ->]]. }
  f_equal. cbn [Sprintf]. simpl. by rewrite append_empty_r.
Qed.

(** ** The basic-auth credentials *)

Lemma GetUsername_found app service :
  WithName (Services app) "possum" = Found service →
  GetUsername (InCF app)
  = match index (Credentials service) "username" with
    | VNil => Return ("", None)
    | VStr s => Return (s, None)
    | v => Panic (InterfaceConversion (TypeOf v) TString)
    end.
Proof.
  intros Hs. unfold GetUsername. simpl. rewrite Hs.
  by destruct (index (Credentials service) "username").
Qed.

Lemma GetPassword_found app service :
  WithName (Services app) "possum" = Found service →
  GetPassword (InCF app)
  = match index (Credentials service) "password" with
    | VNil => Return ("", None)
    | VStr s => Return (s, None)
    | v => Panic (InterfaceConversion (TypeOf v) TString)
    end.
Proof.
  intros Hs. unfold GetPassword. simpl. rewrite Hs.
  by destruct (index (Credentials service) "password").
Qed.

(** C10. There are credential payloads of service possum, with a
    [username] (a [password]) that is bound and is not a string, on which
    [GetUsername] ([GetPassword]) panics in its unchecked assertion
    [.(string)]. In general, once service possum is found, a credential
    that is bound to anything but a string or nil makes the call panic,
    and a credential that is absent makes it return the empty string with
    no error. *)
Theorem credential_readers_panic_on_non_string :
  (∃ credentials v,
     credentials !! "username" = Some v ∧ TypeOf v ≠ Some TString
     ∧ GetUsername (bound [possum_service credentials])
       = Panic (InterfaceConversion (TypeOf v) TString))
  ∧ (∃ credentials v,
       credentials !! "password" = Some v ∧ TypeOf v ≠ Some TString
       ∧ GetPassword (bound [possum_service credentials])
         = Panic (InterfaceConversion (TypeOf v) TString))
  ∧ (∀ app service,
       WithName (Services app) "possum" = Found service →
       (Credentials service !! "username" = None →
        GetUsername (InCF app) = Return ("", None))
       ∧ (Credentials service !! "password" = None →
          GetPassword (InCF app) = Return ("", None))
       ∧ (∀ v, Credentials service !! "username" = Some v →
               TypeOf v ≠ None → TypeOf v ≠ Some TString →
               GetUsername (InCF app)
               = Panic (InterfaceConversion (TypeOf v) TString))
       ∧ (∀ v, Credentials service !! "password" = Some v →
               TypeOf v ≠ None → TypeOf v ≠ Some TString →
               GetPassword (InCF app)
               = Panic (InterfaceConversion (TypeOf v) TString))).
Proof.
  split_and!.
  - exists {[ "username" := VNum (QArith_base.Qmake 42 1) ]}, (VNum (QArith_base.Qmake 42 1)).
    split_and!; [by vm_compute|done|by vm_compute].
  - exists {[ "password" := VBool true ]}, (VBool true).
    split_and!; [by vm_compute|done|by vm_compute].
  - intros app service Hs. split_and!.
    + intros Hk. rewrite (GetUsername_found _ _ Hs). unfold index. by rewrite Hk.
    + intros Hk. rewrite (GetPassword_found _ _ Hs). unfold index. by rewrite Hk.
    + intros v Hk Hnil Hstr. rewrite (GetUsername_found _ _ Hs).
      unfold index. rewrite Hk. simpl. by destruct v.
    + intros v Hk Hnil Hstr. rewrite (GetPassword_found _ _ Hs).
      unfold index. rewrite Hk. simpl. by destruct v.
Qed.

(** ** The theorems at concrete inputs *)

Lemma names_fit_north_south : names_fit ["north"; "south"].
Proof. repeat (constructor; [simpl; lia|]). constructor. Defined.

Lemma SetupStateDB_then_GetPasselState_witness :
  GetPassel env_north_south = Return (["north"; "south"], None)
  ∧ ["north"; "south"] ≠ []
  ∧ names_fit ["north"; "south"]
  ∧ fresh empty_store
  ∧ ∃ db1 db2 result,
    SetupStateDB env_north_south empty_store = (db1, Return None)
    ∧ GetPasselState db1 ["north"; "south"] = (db2, (Some result, None))
    ∧ dom result = list_to_set ["north"; "south"]
    ∧ ∀ possum, possum ∈ ["north"; "south"] → result !! possum = Some "alive".
Proof.
  split; [vm_compute; reflexivity|]. split; [discriminate|].
  split; [exact names_fit_north_south|]. split; [reflexivity|].
  apply (SetupStateDB_then_GetPasselState env_north_south ["north"; "south"]
           empty_store).
  - vm_compute. reflexivity.
  - discriminate.
  - exact names_fit_north_south.
  - reflexivity.
Defined.

(** C2, as it was stated, fails for a name that does not fit the column.
    With a passel of one name of 256 characters, on a fresh store:
    on a server that refuses the name [SetupStateDB] returns the error of
    the [INSERT]; on a server that cuts it, [SetupStateDB] returns no
    error and [GetPasselState] does not find the member. *)
Lemma SetupStateDB_then_GetPasselState_counterexample :
  GetPassel env_long_name = Return ([long_name], None)
  ∧ [long_name] ≠ []
  ∧ fresh empty_store
  ∧ fresh empty_store_cut
  ∧ (SetupStateDB env_long_name empty_store).2 = Return (Some ErrDataTooLong)
  ∧ (SetupStateDB env_long_name empty_store_cut).2 = Return None
  ∧ (GetPasselState (SetupStateDB env_long_name empty_store_cut).1
       [long_name]).2
    = (None, Some (NotFound long_name))
  ∧ ¬ (∃ db1 db2 result,
         SetupStateDB env_long_name empty_store = (db1, Return None)
         ∧ GetPasselState db1 [long_name] = (db2, (Some result, None))
         ∧ dom result = list_to_set [long_name]
         ∧ ∀ possum, possum ∈ [long_name] → result !! possum = Some "alive").
Proof.
  assert ((SetupStateDB env_long_name empty_store).2
          = Return (Some ErrDataTooLong)) as Hrefused
    by (vm_compute; reflexivity).
  split; [vm_compute; reflexivity|]. split; [discriminate|].
  split; [reflexivity|]. split; [reflexivity|]. split; [exact Hrefused|].
  split; [vm_compute; reflexivity|]. split; [vm_compute; reflexivity|].
  intros (db1 & db2 & result & Hsetup & _).
  rewrite Hsetup in Hrefused. discriminate.
Qed.



Lemma WriteState_GetState_round_trip_witness :
  table store_north_south = Some rows_north_south
  ∧ records_of rows_north_south "south" = 1
  ∧ valid_state "alive"
  ∧ ∃ db1, WriteState store_north_south "south" "alive" = (db1, None)
           ∧ (GetState db1 "south").2 = ("alive", None).
Proof.
  split; [reflexivity|]. split; [reflexivity|]. split; [left; reflexivity|].
  apply (WriteState_GetState_round_trip store_north_south rows_north_south
           "south" "alive").
  - reflexivity.
  - reflexivity.
  - left. reflexivity.
Defined.

Lemma GetPasselState_all_or_nothing_witness :
  table store_north_south = Some rows_north_south
  ∧ (∃ db1, GetPasselState store_north_south ["north"; "west"; "south"]
            = (db1, (None, Some (NotFound "west")))
            ∧ table db1 = Some rows_north_south).
Proof.
  split; [reflexivity|].
  apply (proj1 (GetPasselState_all_or_nothing store_north_south rows_north_south
                  ["north"; "west"; "south"] eq_refl)
           ["north"] "west" ["south"]).
  - reflexivity.
  - intros q Hq. apply state_of_is_Some.
    apply list_elem_of_singleton in Hq. rewrite Hq. vm_compute. eauto.
  - apply state_of_None. reflexivity.
Defined.

Lemma WriteState_rejects_invalid_state_witness :
  "unknown" ≠ "alive" ∧ "unknown" ≠ "dead"
  ∧ WriteState store_north_south "north" "unknown"
    = (store_north_south, Some (InvalidState "unknown")).
Proof.
  split; [discriminate|]. split; [discriminate|].
  apply (WriteState_rejects_invalid_state store_north_south "north" "unknown");
    discriminate.
Defined.

Lemma WriteState_unknown_possum_succeeds_witness :
  table store_north_south = Some rows_north_south
  ∧ valid_state "dead"
  ∧ ∃ db1, WriteState store_north_south "west" "dead" = (db1, None)
           ∧ table db1 = Some rows_north_south.
Proof.
  split; [reflexivity|]. split; [right; reflexivity|].
  apply (WriteState_unknown_possum_succeeds store_north_south rows_north_south
           "west" "dead").
  - reflexivity.
  - apply state_of_None. reflexivity.
  - right. reflexivity.
Defined.

Lemma valid_store_preserved_witness :
  valid_store store_north_south
  ∧ valid_store (SetupStateDB env_north_south store_north_south).1
  ∧ valid_store (WriteState store_north_south "north" "dead").1
  ∧ valid_store (GetState store_north_south "north").1
  ∧ valid_store (GetPasselState store_north_south ["north"; "south"]).1.
Proof.
  assert (valid_store store_north_south) as Hv.
  { unfold valid_store, valid_state. simpl.
    constructor; [left; reflexivity|].
    constructor; [right; reflexivity|]. constructor. }
  split; [exact Hv|].
  apply (valid_store_preserved env_north_south store_north_south "north" "dead"
           ["north"; "south"] Hv).
Defined.

Lemma GetDBConnectionDetails_format_witness :
  taken_from credentials_hostname_name "host" "hostname" (VStr "db.internal")
  ∧ taken_from credentials_hostname_name "database" "name" (VStr "possums")
  ∧ GetDBConnectionDetails fmt_unused (InCF app_hostname_name)
    = ("opossum:secret@tcp(db.internal:3306)/possums", None).
Proof.
  assert (taken_from credentials_hostname_name "host" "hostname"
            (VStr "db.internal")) as Hhost.
  { right. split; vm_compute; reflexivity. }
  assert (taken_from credentials_hostname_name "database" "name"
            (VStr "possums")) as Hdb.
  { right. split; vm_compute; reflexivity. }
  split; [exact Hhost|]. split; [exact Hdb|].
  etrans.
  - apply (GetDBConnectionDetails_format fmt_unused app_hostname_name
             (possum_db_service credentials_hostname_name)
             (VStr "db.internal") (VStr "possums")).
    + reflexivity.
    + exact Hhost.
    + exact Hdb.
  - vm_compute. reflexivity.
Defined.

Lemma credential_readers_panic_on_non_string_witness :
  GetUsername env_north_south = Return ("", None)
  ∧ GetPassword env_north_south = Return ("", None).
Proof.
  destruct (proj2 (proj2 credential_readers_panic_on_non_string)
              app_north_south
              (possum_service {[ "passel" := VList [VStr "north"; VStr "south"] ]})
              eq_refl) as (Hu & Hp & _).
  split.
  - apply Hu. vm_compute. reflexivity.
  - apply Hp. vm_compute. reflexivity.
Defined.

(** When [host] and [database] are bound they are the ones used. *)
Example GetDBConnectionDetails_host_database :
  GetDBConnectionDetails fmt_unused (InCF app_host_database)
  = ("opossum:secret@tcp(db.primary:3306)/passel", None).
Proof. vm_compute. reflexivity. Qed.

(** ** Reading states: further properties *)

(** A passel either has a record for each member, or splits at its first
    member without one. *)
Lemma passel_split rows passel :
  (∀ q, q ∈ passel → has_record rows q)
  ∨ ∃ pre possum post,
      passel = pre ++ possum :: post
      ∧ (∀ q, q ∈ pre → has_record rows q)
      ∧ ¬ has_record rows possum.
Proof.
  induction passel as [|p rest IH].
  - left. intros q Hq. by apply elem_of_nil in Hq.
  - destruct (state_of rows p) as [st|] eqn:Hp.
    + assert (has_record rows p) as Hrec by (apply state_of_is_Some; eauto).
      destruct IH as [Hall|(pre & m & post & -> & Hpre & Hno)].
      * left. intros q [->|Hq]%elem_of_cons; [done|by apply Hall].
      * right. exists (p :: pre), m, post. split_and!; [done| |done].
        intros q [->|Hq]%elem_of_cons; [done|by apply Hpre].
    + right. exists [], p, rest. split_and!; [done| |by apply state_of_None].
      intros q Hq. by apply elem_of_nil in Hq.
Qed.

(** X1. On a store whose table exists, [GetState] of a possum that has a
    record returns the state of one of its records with no error; of a
    possum that has none, it returns the empty string and the not-found
    error that names the possum. Either way the table is left as it was. *)
Theorem GetState_found_or_not_found db rows possum :
  table db = Some rows →
  (has_record rows possum →
   ∃ state, (GetState db possum).2 = (state, None) ∧ (possum, state) ∈ rows)
  ∧ (¬ has_record rows possum →
     (GetState db possum).2 = ("", Some (NotFound possum)))
  ∧ table (GetState db possum).1 = Some rows.
Proof.
  intros Ht. rewrite (GetState_table _ _ _ Ht). split_and!; [| |done].
  - intros [st Hst]%state_of_is_Some. exists st. rewrite Hst.
    split; [done|]. by apply state_of_Some_elem.
  - intros Hno%state_of_None. by rewrite Hno.
Qed.

(** X2. [GetPasselState] of an empty passel fails with the error
    [Passel had 0 members], returns a nil map, and sends no statement:
    the store is returned as it was received. *)
Theorem GetPasselState_empty_passel db :
  GetPasselState db [] = (db, (None, Some "Passel had 0 members")).
Proof. reflexivity. Qed.

Lemma GetPasselState_no_error_inv db rows passel :
  table db = Some rows →
  (GetPasselState db passel).2.2 = None →
  passel ≠ [] ∧ ∀ q, q ∈ passel → has_record rows q.
Proof.
  intros Ht Hok. destruct passel as [|p rest]; [done|]. split; [done|].
  destruct (passel_split rows (p :: rest))
    as [Hall|(pre & m & post & Heq & Hpre & Hno)]; [done|].
  rewrite Heq in Hok.
  destruct (GetPasselState_missing db rows pre m post Ht Hpre Hno)
    as (db1 & Hget & _).
  by rewrite Hget in Hok.
Qed.

(** X3. On a store whose table exists, [GetPasselState] returns no error
    exactly when the passel is not empty and each of its members has a
    record. *)
Theorem GetPasselState_succeeds_iff db rows passel :
  table db = Some rows →
  (GetPasselState db passel).2.2 = None
  ↔ passel ≠ [] ∧ ∀ q, q ∈ passel → has_record rows q.
Proof.
  intros Ht. split.
  - by apply GetPasselState_no_error_inv.
  - intros [Hne Hall].
    destruct (GetPasselState_found db rows passel Ht Hne Hall)
      as (db1 & result & Hget & _).
    by rewrite Hget.
Qed.

Lemma GetPasselState_loop_journal_found passel : ∀ passelState db rows,
  table db = Some rows →
  (∀ q, q ∈ passel → has_record rows q) →
  journal (GetPasselState_loop passel passelState db).1
  = journal db ++ (SelectWherePossum <$> passel).
Proof.
  induction passel as [|p rest IH]; intros acc db rows Ht Hall;
    cbn [GetPasselState_loop].
  - simpl. by rewrite app_nil_r.
  - rewrite (QueryRowScan_table _ _ _ Ht).
    destruct (proj2 (state_of_is_Some rows p)) as [st Hst];
      [apply Hall; by left|].
    rewrite Hst. erewrite IH; [|done|].
    + simpl. by rewrite <- app_assoc.
    + intros q Hq. apply Hall. by right.
Qed.

Lemma GetPasselState_loop_journal_missing pre : ∀ possum post passelState db rows,
  table db = Some rows →
  (∀ q, q ∈ pre → has_record rows q) →
  ¬ has_record rows possum →
  journal (GetPasselState_loop (pre ++ possum :: post) passelState db).1
  = journal db ++ (SelectWherePossum <$> (pre ++ [possum])).
Proof.
  induction pre as [|p pre IH]; intros possum post acc db rows Ht Hpre Hno;
    simpl.
  - rewrite (QueryRowScan_table _ _ _ Ht).
    apply state_of_None in Hno. by rewrite Hno.
  - rewrite (QueryRowScan_table _ _ _ Ht).
    destruct (proj2 (state_of_is_Some rows p)) as [st Hst];
      [apply Hpre; by left|].
    rewrite Hst. erewrite IH; [|done| |done].
    + simpl. by rewrite <- app_assoc.
    + intros q Hq. apply Hpre. by right.
Qed.

(** X4. [GetPasselState] fails fast. On a store whose table exists it
    sends one [SELECT] per member, in list order, up to and including the
    first member without a record; the members after that one are never
    looked up. When every member has a record it sends one [SELECT] for
    each. It sends no other statement. *)
Theorem GetPasselState_fails_fast db rows :
  table db = Some rows →
  (∀ pre possum post,
     (∀ q, q ∈ pre → has_record rows q) →
     ¬ has_record rows possum →
     journal (GetPasselState db (pre ++ possum :: post)).1
     = journal db ++ (SelectWherePossum <$> (pre ++ [possum])))
  ∧ (∀ passel,
       (∀ q, q ∈ passel → has_record rows q) →
       journal (GetPasselState db passel).1
       = journal db ++ (SelectWherePossum <$> passel)).
Proof.
  intros Ht. split.
  - intros pre possum post Hpre Hno. unfold GetPasselState.
    case_decide as Hlen.
    + rewrite length_app in Hlen. simpl in Hlen. lia.
    + by apply GetPasselState_loop_journal_missing with rows.
  - intros passel Hall. unfold GetPasselState. case_decide as Hlen.
    + destruct passel; [|done]. simpl. by rewrite app_nil_r.
    + by apply GetPasselState_loop_journal_found with rows.
Qed.

(** X5. The bulk read agrees with the point read. When [GetPasselState]
    returns a map and no error, each member of the passel is a key of the
    map, bound to the state that [GetState] returns for that member on the
    same store, and nothing else is a key. *)
Theorem GetPasselState_agrees_with_GetState db rows passel result :
  table db = Some rows →
  (GetPasselState db passel).2 = (Some result, None) →
  (∀ q, q ∈ passel →
        ∃ state, result !! q = Some state
                 ∧ (GetState db q).2 = (state, None))
  ∧ (∀ q, q ∉ passel → result !! q = None).
Proof.
  intros Ht Hget.
  destruct (GetPasselState_no_error_inv db rows passel Ht) as [Hne Hall];
    [by rewrite Hget|].
  destruct (GetPasselState_loop_found passel ∅ db rows Ht Hall)
    as (db1 & result' & Hloop & _ & Hres).
  unfold GetPasselState in Hget. case_decide as Hlen; [done|].
  rewrite Hloop in Hget. simpl in Hget. injection Hget as ->.
  split.
  - intros q Hq. destruct (proj2 (state_of_is_Some rows q) (Hall q Hq))
      as [st Hst].
    exists st. rewrite Hres, decide_True, (GetState_table _ _ _ Ht), Hst by done.
    done.
  - intros q Hq. by rewrite Hres, decide_False.
Qed.

(** ** Writing states: further properties *)

Lemma update_rows_possums state possum rows :
  (update_rows state possum rows).*1 = rows.*1.
Proof.
  unfold update_rows. induction rows as [|[p st] rows IH]; [done|].
  rewrite map_cons, !fmap_cons, IH. f_equal. simpl. by case_decide.
Qed.

Lemma elem_of_update_rows state possum rows q st :
  (q, st) ∈ update_rows state possum rows
  ↔ (q ≠ possum ∧ (q, st) ∈ rows)
    ∨ (q = possum ∧ st = state ∧ has_record rows possum).
Proof.
  unfold update_rows, has_record.
  induction rows as [|[p st'] rows IH]; simpl.
  - split.
    + by intros ?%elem_of_nil.
    + intros [[_ ?%elem_of_nil]|(_ & _ & [? ?%elem_of_nil])]; done.
  - rewrite elem_of_cons, IH. clear IH. case_decide as Hp; simpl in Hp.
    + subst p. split.
      * intros [[= -> ->]|[[Hne Hin]|(-> & -> & [x Hx])]].
        -- right. split_and!; [done..|]. exists st'. by left.
        -- left. split; [done|]. by right.
        -- right. split_and!; [done..|]. exists x. by right.
      * intros [[Hne [[= -> ->]|Hin]%elem_of_cons]
               |(-> & -> & [x [[= <-]|Hx]%elem_of_cons])].
        -- done.
        -- right. left. done.
        -- by left.
        -- right. right. split_and!; [done..|]. by exists x.
    + split.
      * intros [[= -> ->]|[[Hne Hin]|(-> & -> & [x Hx])]].
        -- left. split; [done|]. by left.
        -- left. split; [done|]. by right.
        -- right. split_and!; [done..|]. exists x. by right.
      * intros [[Hne [[= -> ->]|Hin]%elem_of_cons]
               |(-> & -> & [x [[= <-]|Hx]%elem_of_cons])].
        -- by left.
        -- right. left. done.
        -- done.
        -- right. right. split_and!; [done..|]. by exists x.
Qed.

(** X6. A successful [WriteState possum state] leaves every other possum
    as it was: its records are the same, and [GetState] returns for it
    what it returned before. *)
Theorem WriteState_leaves_other_possums db rows possum state :
  table db = Some rows →
  valid_state state →
  ∃ db1 rows1,
    WriteState db possum state = (db1, None)
    ∧ table db1 = Some rows1
    ∧ ∀ q, q ≠ possum →
           (∀ st, (q, st) ∈ rows1 ↔ (q, st) ∈ rows)
           ∧ (GetState db1 q).2 = (GetState db q).2.
Proof.
  intros Ht Hs. eexists _, _. split; [by apply WriteState_valid|].
  split; [done|]. intros q Hq. split.
  - intros st. rewrite elem_of_update_rows. split.
    + by intros [[_ ?]|[? _]].
    + intros Hin. by left.
  - erewrite !GetState_table by done. simpl.
    by rewrite state_of_update, decide_False.
Qed.

(** X7. A successful [WriteState possum state] sets the state in every
    record of the possum, also when it has several, and neither adds nor
    removes a row: the possum column of the table is unchanged. *)
Theorem WriteState_sets_every_record db rows possum state :
  table db = Some rows →
  valid_state state →
  ∃ db1 rows1,
    WriteState db possum state = (db1, None)
    ∧ table db1 = Some rows1
    ∧ rows1.*1 = rows.*1
    ∧ ∀ st, (possum, st) ∈ rows1 → st = state.
Proof.
  intros Ht Hs. eexists _, _. split; [by apply WriteState_valid|].
  split; [done|]. split; [apply update_rows_possums|].
  intros st [[? _]|(_ & ? & _)]%elem_of_update_rows; done.
Qed.

Lemma WriteState_table db possum state :
  table (WriteState db possum state).1
  = if decide (valid_state state) then update_rows state possum <$> table db
    else table db.
Proof.
  case_decide as Hs.
  - destruct (table db) as [rows|] eqn:Ht.
    + by rewrite (WriteState_valid _ _ _ _ Ht Hs).
    + by rewrite (WriteState_no_table _ _ _ Ht Hs).
  - by rewrite WriteState_invalid.
Qed.

Lemma update_rows_twice state1 state2 possum rows :
  update_rows state2 possum (update_rows state1 possum rows)
  = update_rows state2 possum rows.
Proof.
  unfold update_rows. induction rows as [|[p st] rows IH]; simpl; [done|].
  rewrite IH. repeat (case_decide; simpl in *); done.
Qed.

Lemma update_rows_comm state1 state2 possum1 possum2 rows :
  possum1 ≠ possum2 →
  update_rows state1 possum1 (update_rows state2 possum2 rows)
  = update_rows state2 possum2 (update_rows state1 possum1 rows).
Proof.
  intros Hne. unfold update_rows.
  induction rows as [|[p st] rows IH]; simpl; [done|].
  rewrite IH. repeat (case_decide; simpl in *); congruence.
Qed.

(** X8. The last write wins: whatever the store and the first state, a
    [WriteState] of a valid state to a possum leaves the table that the
    same write leaves when no other write to that possum precedes it. *)
Theorem WriteState_last_write_wins db possum state1 state2 :
  valid_state state2 →
  table (WriteState (WriteState db possum state1).1 possum state2).1
  = table (WriteState db possum state2).1.
Proof.
  intros Hs. rewrite !WriteState_table.
  repeat case_decide; try done.
  destruct (table db) as [rows|]; simpl; [|done]. by rewrite update_rows_twice.
Qed.

(** X9. Writes to different possums commute: in either order they leave
    the same table, whatever the store and the states (a refused state
    changes nothing in either order). *)
Theorem WriteState_commutes db possum1 possum2 state1 state2 :
  possum1 ≠ possum2 →
  table (WriteState (WriteState db possum1 state1).1 possum2 state2).1
  = table (WriteState (WriteState db possum2 state2).1 possum1 state1).1.
Proof.
  intros Hne. rewrite !WriteState_table.
  repeat case_decide; try done.
  destruct (table db) as [rows|]; simpl; [|done].
  by rewrite update_rows_comm.
Qed.

(** X10. Before the table exists the store refuses every statement, and the
    functions hand its error on as it is: [GetState], [GetPasselState] of
    a non-empty passel (after a single [SELECT]) and [WriteState] of a
    valid state return the error of the store, not the not-found error,
    and none of them creates the table. *)
Theorem missing_table_error_is_returned db possum state passel :
  table db = None →
  GetState db possum
  = (logged (SelectWherePossum possum) db None, ("", Some ErrNoTable))
  ∧ (∀ first rest, passel = first :: rest →
       GetPasselState db passel
       = (logged (SelectWherePossum first) db None, (None, Some ErrNoTable)))
  ∧ (valid_state state →
     WriteState db possum state
     = (logged (UpdateSetState state possum) db None, Some ErrNoTable)).
Proof.
  intros Ht. split_and!.
  - by apply GetState_no_table.
  - intros first rest ->. unfold GetPasselState. case_decide; [done|].
    cbn [GetPasselState_loop]. by rewrite (QueryRowScan_no_table _ _ Ht).
  - intros Hs. by apply WriteState_no_table.
Qed.

(** X11. No operation removes a row, and only [SetupStateDB] adds any:
    [GetState] and [GetPasselState] leave the rows as they are,
    [WriteState] leaves the possum column as it is, and [SetupStateDB]
    keeps the rows it finds and appends to them; this holds on every path,
    whatever the arguments. *)
Theorem rows_are_never_removed env db possum state passel :
  stored (GetState db possum).1 = stored db
  ∧ stored (GetPasselState db passel).1 = stored db
  ∧ (stored (WriteState db possum state).1).*1 = (stored db).*1
  ∧ ∃ added, stored (SetupStateDB env db).1 = stored db ++ added.
Proof.
  split_and!.
  - apply GetState_stored.
  - apply GetPasselState_stored.
  - destruct (WriteState_stored db possum state) as [->|[_ ->]]; [done|].
    apply update_rows_possums.
  - destruct (SetupStateDB_stored env db) as (added & Hadd & _). by exists added.
Qed.

(** ** Setting up the store: further properties *)

(** X12. [SetupStateDB] creates the table before it resolves the passel.
    When [GetPassel] returns an error, [SetupStateDB] returns that error,
    and when [GetPassel] panics, so does [SetupStateDB]; in both cases the
    [CREATE TABLE] has been sent, the table exists with the rows the store
    had, and nothing else has been sent. *)
Theorem SetupStateDB_creates_table_first env db :
  (∀ names err,
     GetPassel env = Return (names, Some err) →
     SetupStateDB env db
     = (logged CreateTableIfNotExists db (Some (stored db)), Return (Some err)))
  ∧ (∀ p,
       GetPassel env = Panic p →
       SetupStateDB env db
       = (logged CreateTableIfNotExists db (Some (stored db)), Panic p)).
Proof.
  split.
  - intros names err Hp. unfold SetupStateDB. by rewrite Exec_create, Hp.
  - intros p Hp. unfold SetupStateDB. by rewrite Exec_create, Hp.
Qed.

Lemma state_of_None_possums rows possum :
  state_of rows possum = None ↔ possum ∉ rows.*1.
Proof.
  induction rows as [|[p st] rows IH]; simpl.
  - split; [intros _; apply not_elem_of_nil|done].
  - rewrite not_elem_of_cons. case_decide as Hp; simpl in Hp.
    + split; [done|]. by intros [? _].
    + rewrite IH. split; [|by intros [_ ?]]. intros ?. split; [congruence|done].
Qed.

Lemma records_of_unique rows possum :
  NoDup rows.*1 → has_record rows possum → records_of rows possum = 1.
Proof.
  unfold records_of. induction rows as [|[p st] rows IH].
  - intros _ [? ?%elem_of_nil]. done.
  - rewrite fmap_cons, NoDup_cons. simpl. intros [Hnot Hnd] Hrec.
    rewrite filter_cons. simpl. case_decide as Hp.
    + subst p. apply state_of_None_possums, records_of_state_of in Hnot.
      unfold records_of in Hnot. simpl. by rewrite Hnot.
    + apply IH; [done|]. destruct Hrec as [x [[= -> ->]|Hx]%elem_of_cons];
        [done|by exists x].
Qed.

(** X13. [SetupStateDB] keeps the records unique. On a store where no
    possum has two records, once the passel is resolved and its names fit
    the [possum] column (at most 255 bytes each), the run returns no error
    and leaves a store where no possum has two records and each member of
    the passel has exactly one. *)
Theorem SetupStateDB_keeps_records_unique env passel db :
  GetPassel env = Return (passel, None) →
  names_fit passel →
  NoDup (stored db).*1 →
  ∃ db1,
    SetupStateDB env db = (db1, Return None)
    ∧ NoDup (stored db1).*1
    ∧ ∀ possum, possum ∈ passel → records_of (stored db1) possum = 1.
Proof.
  intros Hp Hfit Hnd.
  destruct (SetupStateDB_resolved env passel db Hp Hfit)
    as (db1 & added & Hsetup & Ht1 & _ & Hadd & Hnd1 & Hlook).
  exists db1. split; [done|]. rewrite (stored_table _ _ Ht1).
  assert (NoDup (stored db ++ added).*1) as Hnd2.
  { rewrite fmap_app. apply NoDup_app. split_and!; [done| |done].
    intros q Hq (r & -> & Hr)%list_elem_of_fmap.
    rewrite Forall_forall in Hadd. destruct (Hadd r Hr) as (_ & _ & Hn).
    by apply state_of_None_possums in Hn. }
  split; [done|]. intros possum Hin. apply records_of_unique; [done|].
  apply state_of_is_Some. rewrite Hlook.
  destruct (state_of (stored db) possum); [by eauto|].
  rewrite decide_True by done. by eauto.
Qed.

(** X14. [SetupStateDB] never changes the state of a possum that has a
    record: on a store whose table exists, [GetState] returns for such a
    possum after the run what it returned before, whether or not the
    possum is in the passel and whatever the outcome of the run, an error
    or a panic included. The run returns no error once the passel is
    resolved and its names fit the [possum] column. *)
Theorem SetupStateDB_keeps_recorded_states env db rows possum :
  table db = Some rows →
  has_record rows possum →
  (GetState (SetupStateDB env db).1 possum).2 = (GetState db possum).2
  ∧ (∀ passel,
       GetPassel env = Return (passel, None) →
       names_fit passel →
       (SetupStateDB env db).2 = Return None).
Proof.
  intros Ht [st Hst]%state_of_is_Some. split.
  - destruct (SetupStateDB_appends env db) as (added & Ht1 & _).
    rewrite (GetState_table _ _ _ Ht1), (GetState_table _ _ _ Ht).
    rewrite state_of_app, (stored_table _ _ Ht). by rewrite Hst.
  - intros passel Hp Hfit.
    destruct (SetupStateDB_resolved env passel db Hp Hfit)
      as (db1 & added & Hsetup & _).
    by rewrite Hsetup.
Qed.

(** X15. Setting up again does not bring a possum back to life. On a
    fresh store, once the passel is resolved and its names fit the
    [possum] column (at most 255 bytes each): after [SetupStateDB], a
    [WriteState] of a valid state to a member, and a second [SetupStateDB],
    every call returns no error and [GetPasselState] of the passel returns
    the written state for that member and ["alive"] for every other
    member. *)
Theorem SetupStateDB_again_keeps_written_state env passel db possum state :
  GetPassel env = Return (passel, None) →
  names_fit passel →
  fresh db →
  possum ∈ passel →
  valid_state state →
  ∃ db1 db2 db3 db4 result,
    SetupStateDB env db = (db1, Return None)
    ∧ WriteState db1 possum state = (db2, None)
    ∧ SetupStateDB env db2 = (db3, Return None)
    ∧ GetPasselState db3 passel = (db4, (Some result, None))
    ∧ result !! possum = Some state
    ∧ ∀ q, q ∈ passel → q ≠ possum → result !! q = Some "alive".
Proof.
  intros Hp Hfit Hfresh Hin Hs.
  destruct (SetupStateDB_resolved env passel db Hp Hfit)
    as (db1 & added & Hsetup & Ht1 & _ & _ & _ & Hlook).
  rewrite Hfresh in Ht1, Hlook. simpl in Ht1, Hlook.
  pose proof (WriteState_valid db1 added possum state Ht1 Hs) as Hw.
  set (db2 := logged (UpdateSetState state possum) db1
                (Some (update_rows state possum added))) in Hw.
  destruct (SetupStateDB_resolved env passel db2 Hp Hfit)
    as (db3 & added2 & Hsetup2 & Ht3 & _ & _ & _ & Hlook2).
  change (stored db2) with (update_rows state possum added) in Ht3, Hlook2.
  assert (∀ q, q ∈ passel →
               state_of (update_rows state possum added ++ added2) q
               = Some (if decide (q = possum) then state else "alive"))
    as Hstates.
  { intros q Hq. rewrite Hlook2, state_of_update. case_decide as Hqp.
    - subst q. rewrite Hlook. by rewrite decide_True.
    - rewrite Hlook. by rewrite decide_True. }
  destruct (GetPasselState_found db3 _ passel Ht3) as (db4 & result & Hget & _ & _ & Hres).
  { intros ->. by apply elem_of_nil in Hin. }
  { intros q Hq. apply state_of_is_Some. rewrite Hstates; by eauto. }
  exists db1, db2, db3, db4, result. split_and!; [done..| |].
  - rewrite Hres, Hstates by done. by rewrite decide_True.
  - intros q Hq Hne. rewrite Hres, Hstates by done. by rewrite decide_False.
Qed.

(** ** The credential readers: further properties *)

Lemma GetPassel_loop_no_error_inv items : ∀ possums names,
  GetPassel_loop items possums = Return (names, None) →
  ∃ rest, names = possums ++ rest ∧ items = VStr <$> rest.
Proof.
  induction items as [|v items IH]; intros possums names; cbn [GetPassel_loop].
  - intros [= <-]. exists []. by rewrite app_nil_r.
  - case_decide as Hty; [done|].
    destruct v; simpl in *; try done.
    intros (rest & -> & ->)%IH. exists (s :: rest).
    by rewrite <- app_assoc.
Qed.

Lemma GetPassel_loop_returns items : ∀ possums,
  ∃ r, GetPassel_loop items possums = Return r.
Proof.
  induction items as [|v items IH]; intros possums; cbn [GetPassel_loop].
  - by eexists.
  - case_decide as Hty; [by eexists|].
    destruct v; simpl in *; first [done|apply IH].
Qed.

(** X16. Once service possum is found, [GetPassel] returns the names
    [names] with no error exactly when the passel of its credentials is
    the sequence of the strings [names]: it succeeds on nothing else, and
    it returns the members as they are, in source order, duplicates
    included. *)
Theorem GetPassel_succeeds_iff app service names :
  WithName (Services app) "possum" = Found service →
  GetPassel (InCF app) = Return (names, None)
  ↔ index (Credentials service) "passel" = VList (VStr <$> names).
Proof.
  intros Hs. rewrite (GetPassel_found _ _ Hs). split.
  - destruct (index (Credentials service) "passel"); try done.
    by intros (rest & -> & ->)%GetPassel_loop_no_error_inv.
  - intros ->. apply GetPassel_loop_strings.
Qed.

(** X17. Once service possum is found and its passel is a sequence,
    [GetPassel] does not panic: the assertion [possum.(string)] is only
    reached for strings. When an element of the sequence is not a string,
    [nil] included, it returns an empty list and the error
    [possum was not a string], wherever the element stands. *)
Theorem GetPassel_checks_each_element app service items :
  WithName (Services app) "possum" = Found service →
  index (Credentials service) "passel" = VList items →
  (∃ r, GetPassel (InCF app) = Return r)
  ∧ (Exists (fun v => TypeOf v ≠ Some TString) items →
     GetPassel (InCF app) = Return ([], Some TypeMismatch)).
Proof.
  intros Hs Hp. rewrite (GetPassel_found _ _ Hs), Hp. split.
  - apply GetPassel_loop_returns.
  - apply GetPassel_loop_not_string.
Qed.

(** X18. Outside the platform every reader hands on the error of
    [cfenv.Current] with an empty result; only [GetDBConnectionDetails]
    wraps it in a message of its own. [SetupStateDB] then fails with that
    error too, after it has created the table. *)
Theorem readers_fail_outside_the_platform fmt_composite err db :
  GetPassel (NotCF err) = Return ([], Some err)
  ∧ GetUsername (NotCF err) = Return ("", Some err)
  ∧ GetPassword (NotCF err) = Return ("", Some err)
  ∧ GetMyApplicationURIs (NotCF err) = ([], Some err)
  ∧ GetDBConnectionDetails fmt_composite (NotCF err)
    = ("", Some ("Can't get DB details from CF env. Check DB binding: "
                 +:+ err))
  ∧ SetupStateDB (NotCF err) db
    = (logged CreateTableIfNotExists db (Some (stored db)), Return (Some err)).
Proof.
  split_and!; try reflexivity.
  - unfold GetDBConnectionDetails. simpl. unfold Errorf. cbn [Sprintf].
    simpl. by rewrite append_empty_r.
  - unfold SetupStateDB. by rewrite Exec_create.
Qed.

(** X19. On the platform, when the service a reader needs is not bound, the
    reader returns the error of the lookup as it is, with an empty result:
    [GetPassel], [GetUsername] and [GetPassword] for service possum,
    [GetDBConnectionDetails] for service possum-db.
    [GetMyApplicationURIs] needs no service and returns the URIs of the
    application. *)
Theorem readers_fail_without_their_service fmt_composite app :
  (∀ err, WithName (Services app) "possum" = Failed err →
          GetPassel (InCF app) = Return ([], Some err)
          ∧ GetUsername (InCF app) = Return ("", Some err)
          ∧ GetPassword (InCF app) = Return ("", Some err))
  ∧ (∀ err, WithName (Services app) "possum-db" = Failed err →
            GetDBConnectionDetails fmt_composite (InCF app) = ("", Some err))
  ∧ GetMyApplicationURIs (InCF app) = (ApplicationURIs app, None).
Proof.
  split_and!.
  - intros err Hs. unfold GetPassel, GetUsername, GetPassword. simpl.
    by rewrite Hs.
  - intros err Hs. unfold GetDBConnectionDetails. simpl. by rewrite Hs.
  - reflexivity.
Qed.

(** X20. Once service possum is found, [GetUsername] returns [s] with no
    error exactly when the [username] credential is the string [s], or is
    absent and [s] is empty; [GetPassword] does the same with the
    [password] credential. Each reads its own credential only. *)
Theorem basic_auth_readers_succeed_iff app service s :
  WithName (Services app) "possum" = Found service →
  (GetUsername (InCF app) = Return (s, None)
   ↔ index (Credentials service) "username" = VStr s
     ∨ (index (Credentials service) "username" = VNil ∧ s = ""))
  ∧ (GetPassword (InCF app) = Return (s, None)
     ↔ index (Credentials service) "password" = VStr s
       ∨ (index (Credentials service) "password" = VNil ∧ s = "")).
Proof.
  intros Hs. rewrite (GetUsername_found _ _ Hs), (GetPassword_found _ _ Hs).
  split.
  - destruct (index (Credentials service) "username"); simpl;
      split; try done; try (by intros [?|[? ?]]).
    + intros [= <-]. by right.
    + by intros [?|[_ ->]].
    + intros [= <-]. by left.
    + by intros [[= ->]|[? _]].
  - destruct (index (Credentials service) "password"); simpl;
      split; try done; try (by intros [?|[? ?]]).
    + intros [= <-]. by right.
    + by intros [?|[_ ->]].
    + intros [= <-]. by left.
    + by intros [[= ->]|[? _]].
Qed.

(** X21. Once service possum-db is found, [GetDBConnectionDetails] returns
    no error, whatever the credentials hold: a credential that is missing
    is not reported, it is printed as fmt prints [nil]. With no credential
    at all the connection string is
    [%!s(<nil>):%!s(<nil>)@tcp(%!s(<nil>):<nil>)/%!s(<nil>)]. *)
Theorem GetDBConnectionDetails_reports_no_missing_credential
    fmt_composite app service :
  WithName (Services app) "possum-db" = Found service →
  (GetDBConnectionDetails fmt_composite (InCF app)).2 = None
  ∧ (Credentials service = ∅ →
     (GetDBConnectionDetails fmt_composite (InCF app)).1
     = "%!s(<nil>):%!s(<nil>)@tcp(%!s(<nil>):<nil>)/%!s(<nil>)").
Proof.
  intros Hs. unfold GetDBConnectionDetails. simpl. rewrite Hs. split; [done|].
  intros ->. reflexivity.
Qed.

(** X22. When the credentials of service possum-db are strings, the
    connection string is made of them as they are, and [host] and
    [database], when bound, take precedence over [hostname] and [name]. *)
Theorem GetDBConnectionDetails_of_strings
    fmt_composite app service username password host port database :
  WithName (Services app) "possum-db" = Found service →
  index (Credentials service) "username" = VStr username →
  index (Credentials service) "password" = VStr password →
  index (Credentials service) "host" = VStr host →
  index (Credentials service) "port" = VStr port →
  index (Credentials service) "database" = VStr database →
  GetDBConnectionDetails fmt_composite (InCF app)
  = (username +:+ ":" +:+ password +:+ "@tcp(" +:+ host +:+ ":" +:+ port
     +:+ ")/" +:+ database, None).
Proof.
  intros Hs Hu Hp Hh Hport Hd. unfold GetDBConnectionDetails. simpl.
  rewrite Hs, Hu, Hp, Hh, Hport, Hd. simpl. f_equal.
  cbn [Sprintf]. simpl. by rewrite append_empty_r.
Qed.

(** ** The further properties at concrete inputs *)

Lemma GetState_found_or_not_found_witness :
  table store_north_south = Some rows_north_south
  ∧ (∃ state, (GetState store_north_south "south").2 = (state, None)
              ∧ ("south", state) ∈ rows_north_south)
  ∧ (GetState store_north_south "west").2 = ("", Some (NotFound "west")).
Proof.
  split; [reflexivity|]. split.
  - apply (proj1 (GetState_found_or_not_found store_north_south
                    rows_north_south "south" eq_refl)).
    apply state_of_is_Some. vm_compute. eauto.
  - apply (proj1 (proj2 (GetState_found_or_not_found store_north_south
                           rows_north_south "west" eq_refl))).
    apply state_of_None. reflexivity.
Defined.

Lemma GetPasselState_succeeds_iff_witness :
  table store_north_south = Some rows_north_south
  ∧ ((GetPasselState store_north_south ["north"; "south"]).2.2 = None
     ↔ ["north"; "south"] ≠ []
       ∧ ∀ q, q ∈ ["north"; "south"] → has_record rows_north_south q).
Proof.
  split; [reflexivity|].
  apply (GetPasselState_succeeds_iff store_north_south rows_north_south
           ["north"; "south"]).
  reflexivity.
Defined.

Lemma GetPasselState_fails_fast_witness :
  table store_north_south = Some rows_north_south
  ∧ journal (GetPasselState store_north_south ["north"; "west"; "south"]).1
    = [SelectWherePossum "north"; SelectWherePossum "west"].
Proof.
  split; [reflexivity|].
  apply (proj1 (GetPasselState_fails_fast store_north_south rows_north_south
                  eq_refl) ["north"] "west" ["south"]).
  - intros q Hq. apply state_of_is_Some.
    apply list_elem_of_singleton in Hq. rewrite Hq. vm_compute. eauto.
  - apply state_of_None. reflexivity.
Defined.

Lemma GetPasselState_agrees_with_GetState_witness :
  table store_north_south = Some rows_north_south
  ∧ (GetPasselState store_north_south ["north"; "south"]).2
    = (Some states_north_south, None)
  ∧ (∀ q, q ∈ ["north"; "south"] →
          ∃ state, states_north_south !! q = Some state
                   ∧ (GetState store_north_south q).2 = (state, None)).
Proof.
  assert ((GetPasselState store_north_south ["north"; "south"]).2
          = (Some states_north_south, None)) as Hget
    by (vm_compute; reflexivity).
  split; [reflexivity|]. split; [exact Hget|].
  apply (proj1 (GetPasselState_agrees_with_GetState store_north_south
                  rows_north_south ["north"; "south"] states_north_south
                  eq_refl Hget)).
Defined.

Lemma WriteState_leaves_other_possums_witness :
  table store_twins = Some rows_twins
  ∧ valid_state "dead"
  ∧ ∃ db1 rows1,
      WriteState store_twins "north" "dead" = (db1, None)
      ∧ table db1 = Some rows1
      ∧ ∀ q, q ≠ "north" →
             (∀ st, (q, st) ∈ rows1 ↔ (q, st) ∈ rows_twins)
             ∧ (GetState db1 q).2 = (GetState store_twins q).2.
Proof.
  split; [reflexivity|]. split; [right; reflexivity|].
  apply (WriteState_leaves_other_possums store_twins rows_twins "north" "dead").
  - reflexivity.
  - right. reflexivity.
Defined.

Lemma WriteState_sets_every_record_witness :
  table store_twins = Some rows_twins
  ∧ valid_state "dead"
  ∧ ∃ db1 rows1,
      WriteState store_twins "north" "dead" = (db1, None)
      ∧ table db1 = Some rows1
      ∧ rows1.*1 = rows_twins.*1
      ∧ ∀ st, ("north", st) ∈ rows1 → st = "dead".
Proof.
  split; [reflexivity|]. split; [right; reflexivity|].
  apply (WriteState_sets_every_record store_twins rows_twins "north" "dead").
  - reflexivity.
  - right. reflexivity.
Defined.

Lemma WriteState_last_write_wins_witness :
  valid_state "alive"
  ∧ table (WriteState (WriteState store_twins "north" "dead").1
             "north" "alive").1
    = table (WriteState store_twins "north" "alive").1.
Proof.
  split; [left; reflexivity|].
  apply (WriteState_last_write_wins store_twins "north" "dead" "alive").
  left. reflexivity.
Defined.

Lemma WriteState_commutes_witness :
  "north" ≠ "south"
  ∧ table (WriteState (WriteState store_twins "north" "dead").1
             "south" "dead").1
    = table (WriteState (WriteState store_twins "south" "dead").1
               "north" "dead").1.
Proof.
  split; [discriminate|].
  apply (WriteState_commutes store_twins "north" "south" "dead" "dead").
  discriminate.
Defined.

Lemma missing_table_error_is_returned_witness :
  table empty_store = None
  ∧ GetState empty_store "north"
    = (logged (SelectWherePossum "north") empty_store None,
       ("", Some ErrNoTable))
  ∧ GetPasselState empty_store ["north"; "south"]
    = (logged (SelectWherePossum "north") empty_store None,
       (None, Some ErrNoTable))
  ∧ WriteState empty_store "north" "dead"
    = (logged (UpdateSetState "dead" "north") empty_store None,
       Some ErrNoTable).
Proof.
  split; [reflexivity|].
  destruct (missing_table_error_is_returned empty_store "north" "dead"
              ["north"; "south"] eq_refl) as (Hget & Hpassel & Hwrite).
  split; [exact Hget|]. split.
  - apply (Hpassel "north" ["south"]). reflexivity.
  - apply Hwrite. right. reflexivity.
Defined.

Lemma SetupStateDB_creates_table_first_witness :
  GetPassel env_passel_mixed = Return ([], Some TypeMismatch)
  ∧ SetupStateDB env_passel_mixed empty_store
    = (logged CreateTableIfNotExists empty_store (Some []),
       Return (Some TypeMismatch))
  ∧ GetPassel env_no_passel = Panic (InterfaceConversion None TSlice)
  ∧ SetupStateDB env_no_passel empty_store
    = (logged CreateTableIfNotExists empty_store (Some []),
       Panic (InterfaceConversion None TSlice)).
Proof.
  split; [vm_compute; reflexivity|]. split.
  - apply (proj1 (SetupStateDB_creates_table_first env_passel_mixed empty_store)
             [] TypeMismatch).
    vm_compute. reflexivity.
  - split; [vm_compute; reflexivity|].
    apply (proj2 (SetupStateDB_creates_table_first env_no_passel empty_store)
             (InterfaceConversion None TSlice)).
    vm_compute. reflexivity.
Defined.

Lemma SetupStateDB_keeps_records_unique_witness :
  GetPassel env_north_south = Return (["north"; "south"], None)
  ∧ names_fit ["north"; "south"]
  ∧ NoDup (stored store_north).*1
  ∧ ∃ db1,
      SetupStateDB env_north_south store_north = (db1, Return None)
      ∧ NoDup (stored db1).*1
      ∧ ∀ possum, possum ∈ ["north"; "south"] →
                  records_of (stored db1) possum = 1.
Proof.
  split; [vm_compute; reflexivity|]. split; [exact names_fit_north_south|].
  split; [apply NoDup_singleton|].
  apply (SetupStateDB_keeps_records_unique env_north_south ["north"; "south"]
           store_north).
  - vm_compute. reflexivity.
  - exact names_fit_north_south.
  - apply NoDup_singleton.
Defined.

Lemma SetupStateDB_keeps_recorded_states_witness :
  table store_north = Some [("north", "dead")]
  ∧ (GetState (SetupStateDB env_north_south store_north).1 "north").2
    = (GetState store_north "north").2
  ∧ (GetState (SetupStateDB env_no_passel store_north).1 "north").2
    = (GetState store_north "north").2
  ∧ (SetupStateDB env_north_south store_north).2 = Return None.
Proof.
  split; [reflexivity|].
  assert (has_record [("north", "dead")] "north") as Hrec
    by (exists "dead"; left).
  split.
  - apply (proj1 (SetupStateDB_keeps_recorded_states env_north_south
                    store_north [("north", "dead")] "north" eq_refl Hrec)).
  - split.
    + apply (proj1 (SetupStateDB_keeps_recorded_states env_no_passel
                      store_north [("north", "dead")] "north" eq_refl Hrec)).
    + apply (proj2 (SetupStateDB_keeps_recorded_states env_north_south
                      store_north [("north", "dead")] "north" eq_refl Hrec)
               ["north"; "south"]).
      * vm_compute. reflexivity.
      * exact names_fit_north_south.
Defined.

Lemma SetupStateDB_again_keeps_written_state_witness :
  GetPassel env_north_south = Return (["north"; "south"], None)
  ∧ names_fit ["north"; "south"]
  ∧ fresh empty_store
  ∧ valid_state "dead"
  ∧ ∃ db1 db2 db3 db4 result,
      SetupStateDB env_north_south empty_store = (db1, Return None)
      ∧ WriteState db1 "south" "dead" = (db2, None)
      ∧ SetupStateDB env_north_south db2 = (db3, Return None)
      ∧ GetPasselState db3 ["north"; "south"] = (db4, (Some result, None))
      ∧ result !! "south" = Some "dead"
      ∧ ∀ q, q ∈ ["north"; "south"] → q ≠ "south" → result !! q = Some "alive".
Proof.
  split; [vm_compute; reflexivity|]. split; [exact names_fit_north_south|].
  split; [reflexivity|]. split; [right; reflexivity|].
  apply (SetupStateDB_again_keeps_written_state env_north_south
           ["north"; "south"] empty_store "south" "dead").
  - vm_compute. reflexivity.
  - exact names_fit_north_south.
  - reflexivity.
  - right. left.
  - right. reflexivity.
Defined.

Lemma GetPassel_succeeds_iff_witness :
  WithName (Services app_north_south) "possum" = Found service_north_south
  ∧ (GetPassel (InCF app_north_south) = Return (["north"; "south"], None)
     ↔ index (Credentials service_north_south) "passel"
       = VList (VStr <$> ["north"; "south"])).
Proof.
  split; [reflexivity|].
  apply (GetPassel_succeeds_iff app_north_south service_north_south
           ["north"; "south"]).
  reflexivity.
Defined.

Lemma GetPassel_checks_each_element_witness :
  WithName (Services app_passel_mixed) "possum" = Found service_passel_mixed
  ∧ (∃ r, GetPassel (InCF app_passel_mixed) = Return r)
  ∧ GetPassel (InCF app_passel_mixed) = Return ([], Some TypeMismatch).
Proof.
  split; [reflexivity|].
  destruct (GetPassel_checks_each_element app_passel_mixed service_passel_mixed
              [VStr "a"; VNum (QArith_base.Qmake 42 1); VStr "b"] eq_refl
              ltac:(vm_compute; reflexivity)) as [Hret Herr].
  split; [exact Hret|]. apply Herr. right. left. discriminate.
Defined.

Lemma readers_fail_without_their_service_witness :
  WithName (Services app_no_service) "possum"
  = Failed "no service with name possum"
  ∧ GetPassel (InCF app_no_service)
    = Return ([], Some "no service with name possum")
  ∧ GetUsername (InCF app_no_service)
    = Return ("", Some "no service with name possum")
  ∧ GetPassword (InCF app_no_service)
    = Return ("", Some "no service with name possum")
  ∧ GetDBConnectionDetails fmt_unused (InCF app_no_service)
    = ("", Some "no service with name possum-db").
Proof.
  split; [reflexivity|].
  destruct (readers_fail_without_their_service fmt_unused app_no_service)
    as (Hpossum & Hdb & _).
  destruct (Hpossum "no service with name possum" eq_refl) as (Hp & Hu & Hw).
  split; [exact Hp|]. split; [exact Hu|]. split; [exact Hw|].
  apply Hdb. reflexivity.
Defined.

Lemma basic_auth_readers_succeed_iff_witness :
  WithName (Services app_basic_auth) "possum" = Found service_basic_auth
  ∧ GetUsername (InCF app_basic_auth) = Return ("keeper", None).
Proof.
  split; [reflexivity|].
  apply (proj1 (basic_auth_readers_succeed_iff app_basic_auth
                  service_basic_auth "keeper" eq_refl)).
  left. vm_compute. reflexivity.
Defined.

Lemma GetDBConnectionDetails_reports_no_missing_credential_witness :
  WithName (Services app_no_credentials) "possum-db"
  = Found (possum_db_service ∅)
  ∧ GetDBConnectionDetails fmt_unused (InCF app_no_credentials)
    = ("%!s(<nil>):%!s(<nil>)@tcp(%!s(<nil>):<nil>)/%!s(<nil>)", None).
Proof.
  split; [reflexivity|].
  destruct (GetDBConnectionDetails_reports_no_missing_credential fmt_unused
              app_no_credentials (possum_db_service ∅) eq_refl) as [Herr Hstr].
  specialize (Hstr eq_refl).
  destruct (GetDBConnectionDetails fmt_unused (InCF app_no_credentials))
    as [conn err].
  simpl in Herr, Hstr. rewrite Herr, Hstr. reflexivity.
Defined.

Lemma GetDBConnectionDetails_of_strings_witness :
  WithName (Services app_host_database) "possum-db"
  = Found (possum_db_service credentials_host_database)
  ∧ GetDBConnectionDetails fmt_unused (InCF app_host_database)
    = ("opossum:secret@tcp(db.primary:3306)/passel", None).
Proof.
  split; [reflexivity|].
  apply (GetDBConnectionDetails_of_strings fmt_unused app_host_database
           (possum_db_service credentials_host_database)
           "opossum" "secret" "db.primary" "3306" "passel");
    vm_compute; reflexivity.
Defined.
